(** * codeblitz-browserfs: the DynamicRequest backend and the read-write lock

    A shallow embedding of
      - [src/generic/rwmutex.ts]  (class [RWMutex]),
      - the request coalescer [wrap] / [finallyPromise] of the DynamicRequest
        backend,
      - the on-demand loader [loadEntry] and the public operations [stat],
        [open], [readdir], [readFile] and [empty] of the DynamicRequest
        backend,
    together with the properties the specification states about them, and
    further properties read off the code.

    JavaScript numbers that only ever hold small integers are modelled as [Z],
    arrays used as queues as [list], [Map<string, _>] as [gmap string _].
    Callbacks and closures are defunctionalised: each function value that the
    code stores in a queue or hands to [setImmediate] / [then] is a constructor
    of an inductive type, and calling it is a case of the interpreter. *)

From stdpp Require Import gmap strings list fin_maps.
From Stdlib Require Import Strings.Ascii Strings.Byte.

Open Scope Z_scope.

(** ** Outcome of a call that can throw *)

(** A method either returns normally or throws [new Error(msg)]. *)
Inductive Completion :=
| Normal
| Thrown (msg : string).

(** * The base mutex *)

Module Mutex.

(** Modelled from the spec: the base class [Mutex] ([src/generic/mutex.ts] is
    not among the sources).  Section 4.4: "a FIFO queue of pending acquirers;
    exactly one holder; release hands off to the next queued acquirer, if
    any, on a future scheduling tick (never synchronously in the same call
    stack as release)"; releasing a lock that is not held is a fault
    (section 7).  [F] is the type of function values. *)
Record Mutex (F : Type) := mk {
  _locked : bool;
  _waiters : list F
}.
Arguments mk {F} _ _.
Arguments _locked {F} _.
Arguments _waiters {F} _.

(** Modelled from the spec: a new mutex is free and nobody waits for it. *)
Definition new {F} : Mutex F := mk false [].

(** Modelled from the spec: [lock(cb)].  The second component is the function
    called synchronously (the new holder), if any. *)
Definition lock {F} (m : Mutex F) (cb : F) : Mutex F * option F :=
  if _locked m
  then (mk true (_waiters m ++ [cb]), None)
  else (mk true (_waiters m), Some cb).

(** Modelled from the spec: [unlock()].  The second component is the function
    handed to [setImmediate] (the next holder), if any; the lock stays held
    during the hand-off. *)
Definition unlock {F} (m : Mutex F) : Mutex F * option F * Completion :=
  if negb (_locked m)
  then (m, None, Thrown "unlock of a non-locked mutex")
  else match _waiters m with
       | next :: rest => (mk true rest, Some next, Normal)
       | [] => (mk false [], None, Normal)
       end.

End Mutex.

(** * The read-write mutex, [src/generic/rwmutex.ts] *)

Module RWMutex.

(** [const rwmutexMaxReaders = 1 << 30] *)
Definition rwmutexMaxReaders : Z := Z.shiftl 1 30.

(** A continuation a client passes to [rLock] or to [lock].  The tag records
    which of the two calls received it (the code only sees a [Function]); the
    number identifies the client. *)
Inductive Callback :=
| ReaderCb (c : nat)
| WriterCb (c : nat).

(** The function values that sit in the base mutex's queue or are handed to
    [setImmediate]: a client's callback, or the arrow function that [lock]
    passes to [super.lock], which captures [cb]. *)
Inductive Fn :=
| User (cb : Callback)
| LockBody (cb : Callback).

(** The fields of an [RWMutex] object; [base] holds the inherited fields. *)
Record RWMutex := mk {
  base : Mutex.Mutex Fn;
  _readerWaiters : list Callback;
  _writerWaiters : list Callback;
  _readerCount : Z;
  _readerWait : Z
}.

(** [new RWMutex()]: the field initialisers. *)
Definition new : RWMutex := mk Mutex.new [] [] 0 0.

(** Assignments to the fields. *)
Definition set_readerCount (m : RWMutex) (n : Z) : RWMutex :=
  mk (base m) (_readerWaiters m) (_writerWaiters m) n (_readerWait m).
Definition set_readerWait (m : RWMutex) (n : Z) : RWMutex :=
  mk (base m) (_readerWaiters m) (_writerWaiters m) (_readerCount m) n.
Definition set_readerWaiters (m : RWMutex) (q : list Callback) : RWMutex :=
  mk (base m) q (_writerWaiters m) (_readerCount m) (_readerWait m).
Definition set_writerWaiters (m : RWMutex) (q : list Callback) : RWMutex :=
  mk (base m) (_readerWaiters m) q (_readerCount m) (_readerWait m).
Definition set_base (m : RWMutex) (b : Mutex.Mutex Fn) : RWMutex :=
  mk b (_readerWaiters m) (_writerWaiters m) (_readerCount m) (_readerWait m).

(** [rLock(cb)].  Returns the object and the callbacks called synchronously. *)
Definition rLock (m : RWMutex) (cb : Callback) : RWMutex * list Callback :=
  let m := set_readerCount m (_readerCount m + 1) in
  if _readerCount m <? 0
  then (set_readerWaiters m (_readerWaiters m ++ [cb]), [])
  else (m, [cb]).

(** [rUnlock()].  Returns the object, the functions handed to [setImmediate]
    and how the call completed. *)
Definition rUnlock (m : RWMutex) : RWMutex * list Fn * Completion :=
  if (_readerCount m =? 0) || (_readerCount m =? - rwmutexMaxReaders)
  then (m, [], Thrown "rUnlock of a non-locked rwmutex")
  else
    let m := set_readerCount m (_readerCount m - 1) in
    if _readerCount m <? 0
    then
      let m := set_readerWait m (_readerWait m - 1) in
      if _readerWait m =? 0
      then match _writerWaiters m with
           | next :: rest => (set_writerWaiters m rest, [User next], Normal)
           | [] => (m, [], Normal)
           end
      else (m, [], Normal)
    else (m, [], Normal).

(** The arrow function of [lock], run once the base mutex is held. *)
Definition lockBody (m : RWMutex) (cb : Callback) : RWMutex * list Callback :=
  let m := set_readerWait m (_readerWait m + _readerCount m) in
  let m := set_readerCount m (_readerCount m - rwmutexMaxReaders) in
  if negb (_readerWait m =? 0)
  then (set_writerWaiters m (_writerWaiters m ++ [cb]), [])
  else (m, [cb]).

(** Calling a function value. *)
Definition call (m : RWMutex) (f : Fn) : RWMutex * list Callback :=
  match f with
  | User cb => (m, [cb])
  | LockBody cb => lockBody m cb
  end.

(** [lock(cb)]: [super.lock(() => { ... })]. *)
Definition lock (m : RWMutex) (cb : Callback) : RWMutex * list Callback :=
  let '(b, now) := Mutex.lock (base m) (LockBody cb) in
  let m := set_base m b in
  match now with
  | Some f => call m f
  | None => (m, [])
  end.

(** The [while (i < count)] loop of [unlock]: [count] times, shift a reader
    off the queue and hand it to [setImmediate] if there was one. *)
Fixpoint wakeReaders (count : nat) (q : list Callback) : list Callback * list Fn :=
  match count with
  | O => (q, [])
  | S count' =>
      match q with
      | cb :: q' => let '(q'', woken) := wakeReaders count' q' in (q'', User cb :: woken)
      | [] => wakeReaders count' []
      end
  end.

(** [unlock()]. *)
Definition unlock (m : RWMutex) : RWMutex * list Fn * Completion :=
  if 0 <=? _readerCount m
  then (m, [], Thrown "unlock of a non-locked rwmutex")
  else
    let m := set_readerCount m (_readerCount m + rwmutexMaxReaders) in
    let count := length (_readerWaiters m) in
    let '(q, woken) := wakeReaders count (_readerWaiters m) in
    let m := set_readerWaiters m q in
    let '(b, next, c) := Mutex.unlock (base m) in
    (set_base m b, woken ++ option_list next, c).

(** ** The lock in its environment

    The environment is the event loop with its queue of functions handed to
    [setImmediate], and the clients.  [readers] and [writers] count the
    clients whose callback has been called and who have not released yet:
    they are the holders of the lock, observed from outside the object.

    Every method that calls a client's callback does so as its last action,
    so whatever the callback itself does with the lock is the next event of
    the sequence. *)
Record World := mkWorld {
  mu : RWMutex;
  immediates : list Fn;
  readers : nat;
  writers : nat
}.

(** A new lock: nothing is pending and nobody holds it. *)
Definition init : World := mkWorld new [] 0 0.

(** A client's callback is called: that client now holds the lock. *)
Definition granted (cb : Callback) (w : World) : World :=
  match cb with
  | ReaderCb _ => mkWorld (mu w) (immediates w) (S (readers w)) (writers w)
  | WriterCb _ => mkWorld (mu w) (immediates w) (readers w) (S (writers w))
  end.

(** The callbacks that a method called. *)
Definition grantAll (cbs : list Callback) (w : World) : World :=
  foldl (fun w cb => granted cb w) w cbs.

(** What can happen: a client calls one of the four methods, or the event
    loop runs one of the pending [setImmediate] functions.  The event loop
    is not assumed to be first-in first-out: [Tick i] runs the [i]-th. *)
Inductive Event :=
| RLock (c : nat)
| RUnlock
| Lock (c : nat)
| Unlock
| Tick (i : nat).

(** One event.  A release that returns normally ends the holding of the
    client that issued it; a release that throws changes no holder. *)
Definition step (w : World) (e : Event) : World * Completion :=
  match e with
  | RLock c =>
      let '(m, called) := rLock (mu w) (ReaderCb c) in
      (grantAll called (mkWorld m (immediates w) (readers w) (writers w)), Normal)
  | RUnlock =>
      let '(m, scheduled, c) := rUnlock (mu w) in
      (mkWorld m (immediates w ++ scheduled)
         (match c with Normal => pred (readers w) | Thrown _ => readers w end)
         (writers w), c)
  | Lock c =>
      let '(m, called) := lock (mu w) (WriterCb c) in
      (grantAll called (mkWorld m (immediates w) (readers w) (writers w)), Normal)
  | Unlock =>
      let '(m, scheduled, c) := unlock (mu w) in
      (mkWorld m (immediates w ++ scheduled) (readers w)
         (match c with Normal => pred (writers w) | Thrown _ => writers w end), c)
  | Tick i =>
      match immediates w !! i with
      | Some f =>
          let '(m, called) := call (mu w) f in
          (grantAll called (mkWorld m (delete i (immediates w)) (readers w) (writers w)), Normal)
      | None => (w, Normal)
      end
  end.

(** A sequence of events. *)
Definition exec (w : World) (tr : list Event) : World :=
  foldl (fun w e => fst (step w e)) w tr.

(** A release is permitted only to a client that holds the lock in the
    matching role. *)
Definition permitted (w : World) (e : Event) : Prop :=
  match e with
  | RUnlock => (0 < readers w)%nat
  | Unlock => (0 < writers w)%nat
  | _ => True
  end.

(** A well-formed (balanced) sequence of calls: every release is permitted
    in the state it is issued in. *)
Fixpoint balanced (w : World) (tr : list Event) : Prop :=
  match tr with
  | [] => True
  | e :: tr' => permitted w e /\ balanced (fst (step w e)) tr'
  end.

(** The three kinds of pending function: a reader's callback, a writer's
    callback, the arrow function of [lock]. *)
Definition isReaderFn (f : Fn) : bool :=
  match f with User (ReaderCb _) => true | _ => false end.
Definition isWriterFn (f : Fn) : bool :=
  match f with User (WriterCb _) => true | _ => false end.
Definition isLockBodyFn (f : Fn) : bool :=
  match f with LockBody _ => true | _ => false end.

(** How many pending functions are of a kind. *)
Fixpoint countFn (p : Fn -> bool) (l : list Fn) : nat :=
  match l with
  | [] => O
  | f :: l' => ((if p f then 1 else 0) + countFn p l')%nat
  end.

(** The acquire-read calls that have been issued and not yet released:
    readers holding the lock, readers queued behind a writer, and readers
    woken by [unlock] whose callback has not run yet. *)
Definition outstandingReads (w : World) : nat :=
  (readers w + length (_readerWaiters (mu w)) + countFn isReaderFn (immediates w))%nat.

(** An [rLock] is within capacity when it leaves fewer than
    [rwmutexMaxReaders] acquire-read calls outstanding. *)
Definition capacity (w : World) (e : Event) : Prop :=
  match e with
  | RLock _ => Z.of_nat (outstandingReads w) + 1 < rwmutexMaxReaders
  | _ => True
  end.

(** The sequence never has [rwmutexMaxReaders] or more acquire-read calls
    outstanding. *)
Fixpoint withinCapacity (w : World) (tr : list Event) : Prop :=
  match tr with
  | [] => True
  | e :: tr' => capacity w e /\ withinCapacity (fst (step w e)) tr'
  end.

(** Mutual exclusion: at most one writer holds the lock, and then no reader
    does. *)
Definition exclusive (w : World) : Prop :=
  (writers w <= 1)%nat /\ ((0 < writers w)%nat -> readers w = O).

(** A writer has claimed the lock: it holds it, or waits for the readers
    that were there before it to drain, or has been woken and its callback is
    about to run. *)
Definition writerClaimed (w : World) : Prop :=
  (0 < writers w + length (_writerWaiters (mu w)) + countFn isWriterFn (immediates w))%nat.

(** ** The invariant of the lock *)

(** The tag of a callback. *)
Definition readerCb (cb : Callback) : Prop :=
  match cb with ReaderCb _ => True | WriterCb _ => False end.
Definition writerCb (cb : Callback) : Prop :=
  match cb with WriterCb _ => True | ReaderCb _ => False end.

(** The arrow function of [lock] always captures a writer's callback. *)
Definition wfFn (f : Fn) : Prop :=
  match f with LockBody cb => writerCb cb | User _ => True end.

(** The five phases of the writer side.  With [R] the readers that hold the
    lock, [PR] the woken readers whose callback has not run yet and [NRQ] the
    queued readers:
    - idle: the base mutex is free and [_readerCount = R + PR];
    - hand-off: the base mutex was handed to the next writer, whose arrow
      function waits in the event loop;
    - draining: a writer has subtracted [rwmutexMaxReaders] and waits in
      [_writerWaiters] for [_readerWait = R + PR > 0] readers;
    - woken: the last of these readers has handed the writer's callback to
      [setImmediate];
    - held: a writer holds the lock. *)
Definition phase (w : World) : Prop :=
  let m := mu w in
  let R := Z.of_nat (readers w) in
  let PR := Z.of_nat (countFn isReaderFn (immediates w)) in
  let NRQ := Z.of_nat (length (_readerWaiters m)) in
  let pw := countFn isWriterFn (immediates w) in
  let pb := countFn isLockBodyFn (immediates w) in
  let rc := _readerCount m in
  let rw := _readerWait m in
  (Mutex._locked (base m) = false /\ Mutex._waiters (base m) = [] /\ pb = O /\ pw = O /\
   _writerWaiters m = [] /\ writers w = O /\ rw = 0 /\ _readerWaiters m = [] /\ rc = R + PR) \/
  (Mutex._locked (base m) = true /\ pb = 1%nat /\ pw = O /\
   _writerWaiters m = [] /\ writers w = O /\ rw = 0 /\ _readerWaiters m = [] /\ rc = R + PR) \/
  (Mutex._locked (base m) = true /\ pb = O /\ pw = O /\
   (exists c, _writerWaiters m = [WriterCb c]) /\ writers w = O /\
   rw = R + PR /\ 0 < rw /\ rc + rwmutexMaxReaders = R + PR + NRQ) \/
  (Mutex._locked (base m) = true /\ pb = O /\ pw = 1%nat /\
   _writerWaiters m = [] /\ writers w = O /\ rw = 0 /\ readers w = O /\ PR = 0 /\
   rc + rwmutexMaxReaders = NRQ) \/
  (Mutex._locked (base m) = true /\ pb = O /\ pw = O /\
   _writerWaiters m = [] /\ writers w = 1%nat /\ rw = 0 /\ readers w = O /\ PR = 0 /\
   rc + rwmutexMaxReaders = NRQ).

(** The invariant: the queues hold what their names say, the outstanding
    acquire-read calls are within capacity, and the lock is in one of the
    five phases. *)
Definition Inv (w : World) : Prop :=
  Forall readerCb (_readerWaiters (mu w)) /\
  Forall wfFn (Mutex._waiters (base (mu w))) /\
  Forall isLockBodyFn (Mutex._waiters (base (mu w))) /\
  Forall wfFn (immediates w) /\
  Z.of_nat (outstandingReads w) < rwmutexMaxReaders /\
  phase w.

(** A writer holds the lock and [q] readers are queued behind it. *)
Definition held (rc : Z) (q : list Callback) : World :=
  mkWorld (mk (Mutex.mk true []) q [] rc 0) [] 0 1.

(** A writer takes the free lock, then [rwmutexMaxReaders] clients call
    [rLock]. *)
Definition overflowTrace : list Event :=
  Lock 0 :: replicate (Z.to_nat (rwmutexMaxReaders - 1)) (RLock 1) ++ [RLock 1].

End RWMutex.

(** * The request coalescer, [wrap] and [finallyPromise] *)

Module Coalescer.

Section Machine.
Context {V E : Type}.

(** How a promise has settled: with the provider's success value or with its
    failure. *)
Inductive Settled :=
| Fulfilled (v : V)
| Rejected (e : E).

(** The handlers registered on promises with [then]:
    - [Finally key d]: the pair of handlers that [finallyPromise(promise,
      () => { cache.delete(key) })] registers on [promise]; [d] is the promise
      that this [then] returned;
    - [ResolveWith d]: the resolving functions of [d], registered on the
      promise that a handler returned;
    - [Caller c]: the handlers of the client [c], which record what it
      observes. *)
Inductive Reaction :=
| Finally (key : string) (d : nat)
| ResolveWith (d : nat)
| Caller (c : nat).

(** The microtasks:
    - [React r o]: a promise settled with [o] and [r] was registered on it;
    - [Continue x o]: the reaction [() => value] (resp. [() => { throw err }])
      on the already fulfilled [Promise.resolve(onFinally())]; it settles the
      promise [x] that its [then] returned;
    - [ResolveThenable d x]: [d] was resolved with the promise [x], so
      [x.then(resolve_d, reject_d)] is to be called. *)
Inductive Job :=
| React (r : Reaction) (o : Settled)
| Continue (x : nat) (o : Settled)
| ResolveThenable (d x : nat).

(** A promise object.  [external] marks a promise that the provider created
    and that the provider settles. *)
Record Promise := mkPromise {
  settled : option Settled;
  reactions : list Reaction;
  external : bool
}.

(** The [cache] of one [wrap(fn)], the promises (a promise is its index in
    [heap]), the microtask queue, and two logs kept for the statements: the
    keys the provider [fn] was invoked with, and what each client observed. *)
Record State := mkState {
  cache : gmap string nat;
  heap : list Promise;
  jobs : list Job;
  invocations : list string;
  observed : list (nat * Settled)
}.

(** [const cache = new Map()] *)
Definition init : State := mkState ∅ [] [] [] [].

(** Updates of the components. *)
Definition set_cache (s : State) (m : gmap string nat) : State :=
  mkState m (heap s) (jobs s) (invocations s) (observed s).
Definition set_heap (s : State) (h : list Promise) : State :=
  mkState (cache s) h (jobs s) (invocations s) (observed s).
Definition enqueue (s : State) (js : list Job) : State :=
  mkState (cache s) (heap s) (jobs s ++ js) (invocations s) (observed s).
Definition logInvocation (key : string) (s : State) : State :=
  mkState (cache s) (heap s) (jobs s) (invocations s ++ [key]) (observed s).
Definition observe (c : nat) (o : Settled) (s : State) : State :=
  mkState (cache s) (heap s) (jobs s) (invocations s) (observed s ++ [(c, o)]).

(** A new promise, pending ([None]) or already settled. *)
Definition alloc (st : option Settled) (ext : bool) (s : State) : nat * State :=
  (length (heap s), set_heap s (heap s ++ [mkPromise st [] ext])).

(** [p.then(r)]: on a settled promise the reaction is queued as a microtask
    at once, on a pending one it is registered. *)
Definition then_ (p : nat) (r : Reaction) (s : State) : State :=
  match heap s !! p with
  | Some pr =>
      match settled pr with
      | Some o => enqueue s [React r o]
      | None => set_heap s (<[p := mkPromise None (reactions pr ++ [r]) (external pr)]> (heap s))
      end
  | None => s
  end.

(** A pending promise settles: its reactions are queued in the order they
    were registered.  Settling a settled promise does nothing. *)
Definition settle (p : nat) (o : Settled) (s : State) : State :=
  match heap s !! p with
  | Some pr =>
      match settled pr with
      | Some _ => s
      | None =>
          enqueue (set_heap s (<[p := mkPromise (Some o) [] (external pr)]> (heap s)))
                  (map (fun r => React r o) (reactions pr))
      end
  | None => s
  end.

(** [finallyPromise(promise, () => { cache.delete(key) })]:
    [promise.then(value => ..., err => ...)]. *)
Definition finallyPromise (promise : nat) (key : string) (s : State) : nat * State :=
  let '(d, s) := alloc None false s in
  (d, then_ promise (Finally key d) s).

(** What the provider [fn] does when it is invoked: it returns a plain value,
    or a promise (pending, or settled already), or it throws. *)
Inductive ProviderReturn :=
| ReturnsValue (v : V)
| ReturnsPromise (st : option Settled)
| Throws (e : E).

(** What a call of the wrapped operation gives its caller: a promise, or the
    exception that the provider threw. *)
Inductive CallResult :=
| Returned (p : nat)
| Threw (e : E).

(** The function that [wrap(fn)] returns, called with [key = args[0]];
    [ret] is what [fn] does if it is invoked. *)
Definition wrap (key : string) (ret : ProviderReturn) (s : State) : CallResult * State :=
  match cache s !! key with
  | Some p => (Returned p, s)
  | None =>
      let s := logInvocation key s in
      match ret with
      | Throws e => (Threw e, s)
      | ReturnsValue v =>
          let '(promise, s) := alloc (Some (Fulfilled v)) false s in
          let s := set_cache s (<[key := promise]> (cache s)) in
          let '(d, s) := finallyPromise promise key s in
          (Returned d, s)
      | ReturnsPromise st =>
          let '(promise, s) := alloc st true s in
          let s := set_cache s (<[key := promise]> (cache s)) in
          let '(d, s) := finallyPromise promise key s in
          (Returned d, s)
      end
  end.

(** One microtask. *)
Definition runJob (j : Job) (s : State) : State :=
  match j with
  | React (Finally key d) o =>
      let s := set_cache s (delete key (cache s)) in
      let '(x, s) := alloc None false s in
      enqueue s [Continue x o; ResolveThenable d x]
  | React (ResolveWith d) o => settle d o s
  | React (Caller c) o => observe c o s
  | Continue x o => settle x o s
  | ResolveThenable d x => then_ x (ResolveWith d) s
  end.

(** The event loop runs the oldest microtask, if there is one. *)
Definition microtask (s : State) : State :=
  match jobs s with
  | j :: rest => runJob j (mkState (cache s) (heap s) rest (invocations s) (observed s))
  | [] => s
  end.

(** The event loop runs [n] microtasks (fewer if the queue runs empty). *)
Fixpoint runMicrotasks (n : nat) (s : State) : State :=
  match n with
  | O => s
  | S n' => runMicrotasks n' (microtask s)
  end.

(** Client [c] calls the wrapped operation and attaches its handlers to the
    promise it gets back. *)
Definition call (c : nat) (key : string) (ret : ProviderReturn) (s : State) : State :=
  match wrap key ret s with
  | (Returned p, s) => then_ p (Caller c) s
  | (Threw e, s) => s
  end.

(** The provider settles a promise it returned. *)
Definition providerSettles (p : nat) (o : Settled) (s : State) : State :=
  match heap s !! p with
  | Some pr => if external pr then settle p o s else s
  | None => s
  end.

(** [N] further calls with the same key, by the clients [cs]. *)
Definition callAll (key : string) (cs : list (nat * ProviderReturn)) (s : State) : State :=
  foldl (fun s cr => call cr.1 key cr.2 s) s cs.

(** The promise that the call for [key] created has settled. *)
Definition settledFor (key : string) (s : State) : Prop :=
  exists p pr o, cache s !! key = Some p /\ heap s !! p = Some pr /\ settled pr = Some o.

(** ** The states of one coalesced call

    [s] is the state before the first call for [key]; the provider's promise
    is [length (heap s)] and the promise that the first client [c0] gets is
    the next one. *)

(** While the call is pending: the provider's promise carries the clean-up
    of [wrap] and the handlers [rs] of the clients that attached. *)
Definition pendingState (s : State) (key : string) (c0 : nat) (rs : list Reaction) : State :=
  mkState (<[key := length (heap s)]> (cache s))
          (heap s ++ [mkPromise None (Finally key (S (length (heap s))) :: rs) true;
                      mkPromise None [Caller c0] false])
          (jobs s) (invocations s ++ [key]) (observed s).

(** Once the provider's promise has settled with [o]. *)
Definition settledState (s : State) (key : string) (c0 : nat) (rs : list Reaction) (o : Settled)
    (ext : bool) : State :=
  mkState (<[key := length (heap s)]> (cache s))
          (heap s ++ [mkPromise (Some o) [] ext; mkPromise None [Caller c0] false])
          (jobs s ++ React (Finally key (S (length (heap s)))) o :: map (fun r => React r o) rs)
          (invocations s ++ [key]) (observed s).

(** After the clean-up of [wrap] has run. *)
Definition cleanedState (s : State) (key : string) (c0 : nat) (js : list Job) (o : Settled)
    (ext : bool) : State :=
  mkState (delete key (<[key := length (heap s)]> (cache s)))
          (heap s ++ [mkPromise (Some o) [] ext; mkPromise None [Caller c0] false;
                      mkPromise None [] false])
          (js ++ [Continue (S (S (length (heap s)))) o;
                  ResolveThenable (S (length (heap s))) (S (S (length (heap s))))])
          (invocations s ++ [key]) (observed s).

(** When every microtask has run. *)
Definition finalState (s : State) (key : string) (c0 : nat) (cs : list nat) (o : Settled)
    (ext : bool) : State :=
  mkState (delete key (<[key := length (heap s)]> (cache s)))
          (heap s ++ [mkPromise (Some o) [] ext; mkPromise (Some o) [] false;
                      mkPromise (Some o) [] false])
          []
          (invocations s ++ [key])
          (observed s ++ map (fun c => (c, o)) cs ++ [(c0, o)]).

(** The first call for a key settles with [o]: at once when the provider
    returns a plain value or a settled promise, later when it returns a
    pending promise. *)
Definition settlesAs (first : ProviderReturn) (o : Settled) : Prop :=
  match first with
  | ReturnsValue v => o = Fulfilled v
  | ReturnsPromise (Some o') => o = o'
  | ReturnsPromise None => True
  | Throws _ => False
  end.

(** The provider settles the promise of the first call if it returned it
    pending. *)
Definition settleIfPending (first : ProviderReturn) (p : nat) (o : Settled) (s : State) : State :=
  match first with
  | ReturnsPromise None => providerSettles p o s
  | _ => s
  end.

(** ** The coalescer under any interleaving *)

(** What can happen: a client calls the wrapped operation, the provider
    settles a promise it returned, the event loop runs a microtask. *)
Inductive Event :=
| Call (c : nat) (key : string) (ret : ProviderReturn)
| Settle (p : nat) (o : Settled)
| Microtask.

(** One event. *)
Definition step (s : State) (e : Event) : State :=
  match e with
  | Call c key ret => call c key ret s
  | Settle p o => providerSettles p o s
  | Microtask => microtask s
  end.

(** A sequence of events. *)
Definition run (s : State) (tr : list Event) : State := foldl step s tr.

(** The key that a clean-up handler, registered or queued, is for. *)
Definition finallyKey (r : Reaction) : option string :=
  match r with Finally key _ => Some key | _ => None end.

Definition jobKey (j : Job) : option string :=
  match j with React r _ => finallyKey r | _ => None end.

(** A call for [key] is pending: its promise [p] has not settled, and the
    clean-up for [key] is registered on it. *)
Definition inFlight (key : string) (p : nat) (s : State) : Prop :=
  exists pr, heap s !! p = Some pr /\ settled pr = None /\ key ∈ omap finallyKey (reactions pr).

(** The invariant of the cache: a pending call is the entry of its key; a
    clean-up that waits in the microtask queue finds the entry of its key,
    with a settled promise; no two clean-ups for one key wait. *)
Record SingleFlight (s : State) : Prop := mkSingleFlight {
  inv_flight : forall key p, inFlight key p s -> cache s !! key = Some p;
  inv_jobs : forall key, key ∈ omap jobKey (jobs s) ->
     exists p pr, cache s !! key = Some p /\ heap s !! p = Some pr /\ is_Some (settled pr);
  inv_nodup : NoDup (omap jobKey (jobs s));
  inv_one : forall p pr, heap s !! p = Some pr -> NoDup (omap finallyKey (reactions pr))
}.

(** No entry of the cache is stale: the call of every entry is pending, or
    the clean-up that deletes the entry waits in the microtask queue. *)
Definition NoStaleEntry (s : State) : Prop :=
  forall key p, cache s !! key = Some p -> inFlight key p s \/ key ∈ omap jobKey (jobs s).

End Machine.

Arguments Settled : clear implicits.
Arguments Reaction : clear implicits.
Arguments Job : clear implicits.
Arguments Promise : clear implicits.
Arguments State : clear implicits.
Arguments ProviderReturn : clear implicits.
Arguments CallResult : clear implicits.
Arguments Event : clear implicits.

End Coalescer.

(** * The DynamicRequest backend: [loadEntry], [stat], [open], [readdir],
    [readFile], [empty] *)

Module DynamicRequest.

(** [FileType] of [core/node_fs_stats]. *)
Inductive FileType := FILE | DIRECTORY | SYMLINK.

(** The error codes of [core/api_error] that the backend produces. *)
Inductive ErrorCode := EPERM | ENOENT | EEXIST | EISDIR | ENOTDIR | EINVAL.

(** An [ApiError]: its code and its path or message. *)
Record ApiError := mkApiError { errno : ErrorCode; detail : string }.

(** [ActionType] of [core/file_flag]. *)
Inductive ActionType := NOP | THROW_EXCEPTION | TRUNCATE_FILE | CREATE_FILE.

(** A [FileFlag] ([core/file_flag] is not among the sources): the answers to
    the two queries the backend makes. *)
Record FileFlag := mkFileFlag {
  isWriteable : bool;
  pathExistsAction : ActionType
}.

(** What a [BFSCallback] is called with: [cb(err)] or [cb(null, a)]. *)
Inductive Callback (A : Type) :=
| CbErr (e : ApiError)
| CbOk (a : A).
Arguments CbErr {A} _.
Arguments CbOk {A} _.

(** The fields of [Stats] that the backend reads and writes. *)
Record Stats := mkStats {
  itemType : FileType;
  size : Z;
  mode : Z;
  fileData : option (list byte)
}.

(** [stats.size = n] *)
Definition set_size (st : Stats) (n : Z) : Stats :=
  mkStats (itemType st) n (mode st) (fileData st).

(** [new NoSyncFile(self, path, flags, stats, buffer)] *)
Record NoSyncFile := mkNoSyncFile {
  file_path : string;
  file_flag : FileFlag;
  file_stat : Stats;
  file_buffer : list byte
}.

(** How a provider's promise settles. *)
Inductive ProviderResult (Err A : Type) :=
| Resolves (a : A)
| Rejects (e : Err).
Arguments Resolves {Err A} _.
Arguments Rejects {Err A} _.

(** How the promise of [loadEntry] settles. *)
Inductive Outcome (Err : Type) :=
| Resolved
| Rejected (e : Err).
Arguments Resolved {Err}.
Arguments Rejected {Err} _.

(** What a lookup in the index found. *)
Inductive Kind := Absent | IsFile | IsDir (entriesLoaded : bool).

(** The trace of a run: the lookup of an accumulated prefix by [loadEntry]
    (a segment is attempted), the invocations of the three providers, and the
    settling of a directory listing. *)
Inductive Event :=
| Lookup (p : string) (k : Kind)
| ReadDirectory (p : string)
| Listed (p : string)
| Failed (p : string)
| StatCall (p : string)
| ReadFileCall (p : string).

(** [s.split(sep)] for a one-character separator. *)
Fixpoint split (sep : ascii) (s : string) : list string :=
  match s with
  | EmptyString => [EmptyString]
  | String c r =>
      if Ascii.eqb c sep then EmptyString :: split sep r
      else match split sep r with
           | h :: t => String c h :: t
           | [] => [String c EmptyString]
           end
  end.

(** [Boolean] on a string: the empty string is falsy. *)
Definition Boolean (s : string) : bool :=
  match s with EmptyString => false | _ => true end.

(** [['/'].concat(path.split('/').filter(Boolean)).slice(0, loadBase ? undefined : -1)] *)
Definition pathList (path : string) (loadBase : bool) : list string :=
  let l := "/"%string :: List.filter Boolean (split "/" path) in
  if loadBase then l else removelast l.

(** [l.join(sep)] *)
Fixpoint joinWith (sep : string) (l : list string) : string :=
  match l with
  | [] => EmptyString
  | [x] => x
  | x :: l' => x +:+ sep +:+ joinWith sep l'
  end.

(** Modelled from the spec: the parent directory and the item name of an
    absolute path, for the index ([src/generic/file_index] is not among the
    sources). *)
Definition splitPath (path : string) : string * string :=
  let segs := split "/" path in
  let dir := joinWith "/" (removelast segs) in
  (match dir with EmptyString => "/"%string | _ => dir end, List.last segs EmptyString).

Section Backend.
Context {T Err : Type}.

(** Modelled from the spec: the inodes of the index (section 3;
    [src/generic/file_index] is not among the sources).  A [FileInode] owns
    its [Stats] and the extend-data of its path; a [DirInode] has the
    [entriesLoaded] mark, its extend-data and the names of its children. *)
Inductive Inode :=
| FileInode (data : Stats) (extendData : option T)
| DirInode (entriesLoaded : bool) (extendData : option T) (listing : list string).

(** [isDirInode(inode)], [isFileInode(inode)], [inode === null], and the
    [entriesLoaded] mark of a directory. *)
Definition kindOf (i : option Inode) : Kind :=
  match i with
  | None => Absent
  | Some (FileInode _ _) => IsFile
  | Some (DirInode l _ _) => IsDir l
  end.

(** Modelled from the spec: the path index, "an arena of nodes addressed by
    normalized path string" (section 9), with the "root Directory Inode
    created at construction" (section 3). *)
Definition newIndex : gmap string Inode := {[ "/"%string := DirInode false None [] ]}.

(** Modelled from the spec: "lookup by exact path". *)
Definition getInode (idx : gmap string Inode) (path : string) : option Inode := idx !! path.

(** Modelled from the spec: "insertion attaches a new child under an existing
    parent"; it "requires the parent directory already present", and there
    are "no removal or path-update operations": a path that is present keeps
    its inode. *)
Definition addPathFast (idx : gmap string Inode) (path : string) (node : Inode) : gmap string Inode :=
  let '(parent, name) := splitPath path in
  match idx !! parent, idx !! path with
  | Some (DirInode l e ls), None => <[path := node]> (<[parent := DirInode l e (ls ++ [name])]> idx)
  | _, _ => idx
  end.

(** [inode.entriesLoaded = true], where [inode] is the object that the index
    holds at [p]. *)
Definition setEntriesLoaded (idx : gmap string Inode) (p : string) : gmap string Inode :=
  match idx !! p with
  | Some (DirInode _ e ls) => <[p := DirInode true e ls]> idx
  | _ => idx
  end.

(** An assignment to a field of [stats = inode.getData()], where [inode] is
    the object that the index holds at [p]. *)
Definition setData (idx : gmap string Inode) (p : string) (st : Stats) : gmap string Inode :=
  match idx !! p with
  | Some (FileInode _ e) => <[p := FileInode st e]> idx
  | _ => idx
  end.

(** [type FileEntry = [string, FileType, any?]] *)
Definition FileEntry : Type := string * FileType * option T.

(** The file system object: its index, and the trace of what it did. *)
Record FS := mkFS {
  _index : gmap string Inode;
  log : list Event
}.

(** [new DynamicRequest(opts)] *)
Definition create : FS := mkFS newIndex [].

(** Updates of the components. *)
Definition record (e : Event) (fs : FS) : FS := mkFS (_index fs) (log fs ++ [e]).
Definition set_index (fs : FS) (idx : gmap string Inode) : FS := mkFS idx (log fs).

(** [paths.join] of the [path] module. *)
Variable join : string -> string -> string.
(** [e && e.message || ''] *)
Variable messageOf : Err -> string.
(** The providers [opts.readDirectory], [opts.stat] (optional) and
    [opts.readFile]: how the promise of a call settles. *)
Variable opt_readDirectory : string -> option T -> ProviderResult Err (option (list FileEntry)).
Variable opt_stat : option (string -> option T -> ProviderResult Err Z).
Variable opt_readFile : string -> option T -> ProviderResult Err (list byte).
(** What [DirInode.getStats()] returns. *)
Variable dirStats : Stats.

(** [this._readDirectory(p, data)], one call with no other call for [p] in
    flight: the wrapped provider invokes the provider. *)
Definition _readDirectory (p : string) (data : option T) (fs : FS)
  : ProviderResult Err (option (list FileEntry)) * FS :=
  let fs := record (ReadDirectory p) fs in
  match opt_readDirectory p data with
  | Resolves l => (Resolves l, record (Listed p) fs)
  | Rejects e => (Rejects e, record (Failed p) fs)
  end.

(** The body of the [forEach] in [loadEntry]. *)
Definition insertEntry (p : string) (idx : gmap string Inode) (entry : FileEntry) : gmap string Inode :=
  let '(name, fileType, extendData) := entry in
  let node :=
    match fileType with
    | DIRECTORY => DirInode false extendData []
    | _ => FileInode (mkStats FILE (-1) 365 None) extendData
    end in
  addPathFast idx (join p name) node.

(** [next(index)] of [loadEntry], on the segments from [index] on.  The
    promise of the listing is awaited before the walk goes on. *)
Fixpoint next (pathList : list string) (p : string) (fs : FS) : Outcome Err * FS :=
  match pathList with
  | [] => (Resolved, fs)
  | seg :: rest =>
      let p := join p seg in
      let inode := getInode (_index fs) p in
      let fs := record (Lookup p (kindOf inode)) fs in
      match inode with
      | Some (DirInode entriesLoaded extendData _) =>
          if entriesLoaded then next rest p fs
          else
            match _readDirectory p extendData fs with
            | (Resolves entryList, fs) =>
                let idx := foldl (insertEntry p) (_index fs) (default [] entryList) in
                let idx := setEntriesLoaded idx p in
                next rest p (set_index fs idx)
            | (Rejects e, fs) => (Rejected e, fs)
            end
      | _ => (Resolved, fs)
      end
  end.

(** [loadEntry(path, loadBase)] *)
Definition loadEntry (path : string) (loadBase : bool) (fs : FS) : Outcome Err * FS :=
  next (pathList path loadBase) EmptyString fs.

(** [stat(path, isLstat, cb)]: what [cb] is called with.  An inode of the
    index is a file or a directory, so the last branch of the source (neither
    of the two, [EINVAL]) has no case here. *)
Definition stat (path : string) (fs : FS) : Callback Stats * FS :=
  match getInode (_index fs) path with
  | None => (CbErr (mkApiError ENOENT path), fs)
  | Some (FileInode stats extendData) =>
      match (size stats <? 0), opt_stat with
      | true, Some _stat =>
          let fs := record (StatCall path) fs in
          match _stat path extendData with
          | Resolves sz =>
              let stats := set_size stats sz in
              (CbOk stats, set_index fs (setData (_index fs) path stats))
          | Rejects e => (CbErr (mkApiError EINVAL (messageOf e)), fs)
          end
      | _, _ => (CbOk stats, fs)
      end
  | Some (DirInode _ _ _) => (CbOk dirStats, fs)
  end.

(** [open(path, flags, mode, cb)]: what [cb] is called with. *)
Definition open (path : string) (flags : FileFlag) (fs : FS) : Callback NoSyncFile * FS :=
  if isWriteable flags then (CbErr (mkApiError EPERM path), fs)
  else
    match getInode (_index fs) path with
    | None => (CbErr (mkApiError ENOENT path), fs)
    | Some (FileInode stats extendData) =>
        match pathExistsAction flags with
        | THROW_EXCEPTION | TRUNCATE_FILE => (CbErr (mkApiError EEXIST path), fs)
        | NOP =>
            match fileData stats with
            | Some buf => (CbOk (mkNoSyncFile path flags stats buf), fs)
            | None =>
                let fs := record (ReadFileCall path) fs in
                match opt_readFile path extendData with
                | Resolves content =>
                    let stats :=
                      mkStats (itemType stats) (Z.of_nat (length content)) (mode stats)
                              (Some content) in
                    (CbOk (mkNoSyncFile path flags stats content),
                     set_index fs (setData (_index fs) path stats))
                | Rejects e => (CbErr (mkApiError EINVAL (messageOf e)), fs)
                end
            end
        | _ => (CbErr (mkApiError EINVAL "Invalid FileMode object."), fs)
        end
    | Some (DirInode _ _ _) => (CbErr (mkApiError EISDIR path), fs)
    end.

(** [readdir(path, cb)]: what [cb] is called with.  Nothing in the [try]
    block throws here, so the [catch] has no case. *)
Definition readdir (path : string) (fs : FS) : Callback (list string) * FS :=
  match getInode (_index fs) path with
  | None => (CbErr (mkApiError ENOENT path), fs)
  | Some (DirInode entriesLoaded _ listing) =>
      if entriesLoaded then (CbOk listing, fs)
      else (CbErr (mkApiError EINVAL "Failed to readdir"), fs)
  | Some (FileInode _ _) => (CbErr (mkApiError ENOTDIR path), fs)
  end.

(** [finallyPromise(promise, onFinally)] once [promise] has settled:
    [onFinally] runs in either case, and the promise that [finallyPromise]
    returns settles as [promise] did. *)
Definition finallyPromise {A} (promise : Outcome Err * FS) (onFinally : FS -> A * FS)
  : Outcome Err * A * FS :=
  match promise with
  | (Resolved, fs) => let '(a, fs) := onFinally fs in (Resolved, a, fs)
  | (Rejected err, fs) => let '(a, fs) := onFinally fs in (Rejected err, a, fs)
  end.

(** The three methods as the [forEach] at the end of the file replaces them:
    [finallyPromise(this.loadEntry(path, method === 'readdir'),
    () => { _rawFn.call(this, path, ...args) })].  The first component is how
    the promise that nobody holds settles, the second what [cb] is called
    with. *)
Definition wrapped_stat (path : string) (fs : FS) : Outcome Err * Callback Stats * FS :=
  finallyPromise (loadEntry path false fs) (stat path).
Definition wrapped_open (path : string) (flags : FileFlag) (fs : FS)
  : Outcome Err * Callback NoSyncFile * FS :=
  finallyPromise (loadEntry path false fs) (open path flags).
Definition wrapped_readdir (path : string) (fs : FS) : Outcome Err * Callback (list string) * FS :=
  finallyPromise (loadEntry path true fs) (readdir path).

(** What [readFile] passes to its callback as the second argument: a string
    when an encoding is given, a copy of the buffer otherwise. *)
Inductive Content :=
| Text (s : string)
| Bytes (b : list byte).

(** [fd.close(cb)] of a [NoSyncFile] ([generic/preload_file] is not among
    the sources): the error that [cb] is called with, if any. *)
Variable closeFile : NoSyncFile -> option ApiError.
(** [buff.toString(encoding)]: the string, or the value it throws. *)
Variable toString : list byte -> string -> ApiError + string.

(** [tryToString(buff, encoding, cb)]: the two arguments that [cb] is called
    with. *)
Definition tryToString (buff : list byte) (encoding : string)
  : option ApiError * option Content :=
  match toString buff encoding with
  | inr s => (None, Some (Text s))
  | inl e => (Some e, None)
  end.

(** [readFile(fname, encoding, flag, cb)]: the two arguments that [cb] is
    called with.  [this.open] is the method as installed on the prototype;
    the callback that closes the file keeps the first error. *)
Definition readFile (fname : string) (encoding : option string) (flag : FileFlag) (fs : FS)
  : Outcome Err * (option ApiError * option Content) * FS :=
  let '(settles, opened, fs) := wrapped_open fname flag fs in
  match opened with
  | CbErr err => (settles, (Some err, None), fs)
  | CbOk fd =>
      let fdBuff := file_buffer fd in
      let '(err, arg) :=
        match encoding with
        | None => (None, Some (Bytes fdBuff))
        | Some enc => tryToString fdBuff enc
        end in
      let err2 := closeFile fd in
      (settles, (match err with Some _ => err | None => err2 end, arg), fs)
  end.

(** [file.fileData = null] *)
Definition clearData (i : Inode) : Inode :=
  match i with
  | FileInode st e => FileInode (mkStats (itemType st) (size st) (mode st) None) e
  | DirInode l e ls => DirInode l e ls
  end.

(** [empty()]: [fileIterator] calls the function on the [Stats] of every
    file of the index. *)
Definition empty (fs : FS) : FS := set_index fs (clearData <$> _index fs).

(** The prefixes that the walk accumulates in [p], root first. *)
Fixpoint accumulate (p : string) (pathList : list string) : list string :=
  match pathList with
  | [] => []
  | seg :: rest => join p seg :: accumulate (join p seg) rest
  end.

End Backend.


(** The directories that the listing provider was asked for. *)
Definition listingCalls (tr : list Event) : list string :=
  omap (fun e => match e with ReadDirectory p => Some p | _ => None end) tr.

(** The invocations of the three providers in a trace. *)
Definition isProviderCall (e : Event) : bool :=
  match e with
  | ReadDirectory _ | StatCall _ | ReadFileCall _ => true
  | _ => false
  end.
Definition providerCalls (tr : list Event) : list Event := List.filter isProviderCall tr.




(** The directory at [q] has its entries loaded. *)
Definition loadedDir {T} (idx : gmap string (@Inode T)) (q : string) : Prop :=
  exists e ls, idx !! q = Some (DirInode true e ls).

(** [q] can be resolved: it is a directory of the index. *)
Definition isDir {T} (idx : gmap string (@Inode T)) (q : string) : Prop :=
  exists l e ls, idx !! q = Some (DirInode l e ls).


(** [paths.join] on a normalised absolute prefix and one plain segment. *)
Definition posixJoin (p seg : string) : string :=
  match p with
  | EmptyString => seg
  | _ => if String.eqb p "/" then p +:+ seg else p +:+ "/" +:+ seg
  end.

(** The listing provider of [test/tests/fs/DynamicRequest/load.ts]. *)
Definition dirMap (p : string) (data : option unit)
  : ProviderResult string (option (list (@FileEntry unit))) :=
  if String.eqb p "/" then
    Resolves (Some [("README.md"%string, FILE, None); ("test"%string, DIRECTORY, None);
                    ("src"%string, DIRECTORY, None)])
  else if String.eqb p "/test" then Resolves (Some [("fixtures"%string, DIRECTORY, None)])
  else if String.eqb p "/test/fixtures" then Resolves (Some [("static"%string, DIRECTORY, None)])
  else if String.eqb p "/test/fixtures/static" then
    Resolves (Some [("49chars.txt"%string, FILE, None)])
  else if String.eqb p "/src" then
    Resolves (Some [("README.md"%string, FILE, None); ("backend"%string, DIRECTORY, None);
                    ("main.ts"%string, FILE, None)])
  else if String.eqb p "/src/backend" then
    Resolves (Some [("AsyncMirror.ts"%string, FILE, None);
                    ("XmlHttpRequest.ts"%string, FILE, None); ("ZipFS.ts"%string, FILE, None)])
  else Resolves None.

(** The same provider when the listing of [/test] cannot be fetched. *)
Definition flakyDirMap (p : string) (data : option unit)
  : ProviderResult string (option (list (@FileEntry unit))) :=
  if String.eqb p "/test" then Rejects "offline"%string else dirMap p data.

(** The file system of [test/tests/fs/DynamicRequest/load.ts] after
    [/src/main.ts] was looked up: the root and [/src] are loaded. *)
Definition afterMain : @FS unit :=
  (loadEntry posixJoin dirMap "/src/main.ts" false create).2.

(** A provider of file content and one of sizes. *)
Definition twoBytes (p : string) (data : option unit) : ProviderResult string (list byte) :=
  Resolves [x68; x69].
Definition size49 (p : string) (data : option unit) : ProviderResult string Z :=
  Resolves 49.

End DynamicRequest.

(** * Properties of the read-write mutex *)

Module RWMutexFacts.
Import RWMutex.

Lemma max_val : rwmutexMaxReaders = 1073741824.
Proof. reflexivity. Qed.

(** ** Counting the pending functions *)

Lemma countFn_app p l1 l2 : countFn p (l1 ++ l2) = (countFn p l1 + countFn p l2)%nat.
Proof. induction l1 as [|f l1 IH]; simpl; [done|]. rewrite IH. lia. Qed.

Lemma countFn_delete p l i f :
  l !! i = Some f ->
  countFn p l = ((if p f then 1 else 0) + countFn p (delete i l))%nat.
Proof.
  revert i. induction l as [|g l IH]; intros [|i] H; simpl in *; try done.
  - by inversion H.
  - rewrite (IH i H). lia.
Qed.

(** The loop of [unlock] empties the queue of readers. *)
Lemma wakeReaders_all q : wakeReaders (length q) q = ([], map User q).
Proof. induction q as [|cb q IH]; simpl; [done|]. by rewrite IH. Qed.

Lemma count_woken_readers q :
  Forall readerCb q -> countFn isReaderFn (map User q) = length q.
Proof.
  induction 1 as [|cb q H _ IH]; simpl; [done|]. destruct cb; [|done]. simpl. by rewrite IH.
Qed.

Lemma count_woken_writers q :
  Forall readerCb q -> countFn isWriterFn (map User q) = O.
Proof. induction 1 as [|cb q H _ IH]; simpl; [done|]. by destruct cb. Qed.

Lemma count_woken_bodies q : countFn isLockBodyFn (map User q) = O.
Proof. induction q; simpl; done. Qed.

Lemma wf_woken q : Forall wfFn (map User q).
Proof. induction q; constructor; done. Qed.

(** ** The invariant is kept by every permitted call *)

Ltac zb :=
  repeat match goal with
  | |- context [?a <? ?b] => destruct (Z.ltb_spec a b); try lia
  | |- context [?a <=? ?b] => destruct (Z.leb_spec a b); try lia
  | |- context [?a =? ?b] => destruct (Z.eqb_spec a b); try lia
  end.

Ltac fin :=
  repeat split; simpl; rewrite ?length_app, ?countFn_app; simpl;
  try done; try lia; eauto.

(** Finds the phase that the new state is in. *)
Ltac solve_phase :=
  first [ solve [left; fin] | solve [right; left; fin]
        | solve [right; right; left; fin] | solve [do 3 right; left; fin]
        | solve [do 4 right; fin] ].

Ltac solve_inv :=
  split; [ | try done];
  repeat match goal with
  | |- Forall _ _ /\ _ =>
      split; [ rewrite ?Forall_app, ?Forall_cons; simpl; try done; eauto | ]
  | |- (_ < _) /\ _ =>
      split; [ simpl; rewrite ?length_app, ?countFn_app; simpl; try lia | ]
  end;
  try solve_phase.

Ltac phases H :=
  destruct H as [H|[H|[H|[H|H]]]]; destruct_and!; subst; simpl in *.

Lemma init_Inv : Inv init.
Proof.
  unfold Inv, init, outstandingReads; simpl. repeat split; try constructor; try done.
Qed.

Lemma step_Inv w e :
  Inv w -> permitted w e -> capacity w e ->
  Inv (fst (step w e)) /\ snd (step w e) = Normal.
Proof.
  destruct w as [[[locked mq] rq wq rc rw] imm R W].
  unfold Inv, phase, capacity, outstandingReads; simpl.
  pose proof max_val as Hmax.
  intros (Hrq & Hmq & Hmqb & Himm & Hcap & Hph) Hperm Hc.
  destruct e as [c| |c| |i]; simpl in *.
  - (* rLock *)
    unfold rLock; simpl.
    phases Hph; zb; simpl.
    all: solve_inv.
  - (* rUnlock *)
    unfold rUnlock; simpl.
    phases Hph; try lia.
    all: zb; simpl; zb; simpl.
    all: try solve [solve_inv].
    all: repeat match goal with H : exists _, _ |- _ => destruct H as [? ->] end; simpl.
    all: try solve [solve_inv].
  - (* lock *)
    unfold lock, Mutex.lock; simpl.
    phases Hph.
    all: unfold lockBody; simpl; zb; simpl.
    all: try solve [solve_inv].
  - (* unlock *)
    unfold unlock, Mutex.unlock; simpl.
    phases Hph; try lia.
    zb. rewrite wakeReaders_all. simpl.
    pose proof (count_woken_readers _ Hrq) as Hr1.
    pose proof (count_woken_writers _ Hrq) as Hr2.
    pose proof (count_woken_bodies rq) as Hr3.
    pose proof (wf_woken rq) as Hr4.
    destruct mq as [|next mq]; simpl.
    + rewrite app_nil_r. solve_inv.
    + inversion Hmq; inversion Hmqb; subst.
      destruct next as [cb|cb]; [done|].
      solve_inv.
  - (* the event loop runs a pending function *)
    destruct (imm !! i) as [f|] eqn:Hf; simpl.
    2: { repeat split; done. }
    pose proof (countFn_delete isReaderFn _ _ _ Hf) as Hd1.
    pose proof (countFn_delete isWriterFn _ _ _ Hf) as Hd2.
    pose proof (countFn_delete isLockBodyFn _ _ _ Hf) as Hd3.
    assert (Forall wfFn (delete i imm)) as Hd4 by (by apply Forall_delete).
    assert (wfFn f) as Hwf by (by eapply Forall_lookup_1 in Himm).
    destruct f as [[c|c]|[c|c]]; simpl in *; try done.
    all: unfold lockBody; simpl.
    all: phases Hph; try lia.
    all: zb; simpl.
    all: try solve [solve_inv].
Qed.

Lemma exec_snoc w tr e : exec w (tr ++ [e]) = fst (step (exec w tr) e).
Proof. unfold exec. by rewrite foldl_app. Qed.

Lemma balanced_app w tr1 tr2 :
  balanced w (tr1 ++ tr2) <-> balanced w tr1 /\ balanced (exec w tr1) tr2.
Proof.
  revert w. induction tr1 as [|e tr1 IH]; intros w; simpl; [tauto|].
  rewrite IH. tauto.
Qed.

Lemma withinCapacity_app w tr1 tr2 :
  withinCapacity w (tr1 ++ tr2)
  <-> withinCapacity w tr1 /\ withinCapacity (exec w tr1) tr2.
Proof.
  revert w. induction tr1 as [|e tr1 IH]; intros w; simpl; [tauto|].
  rewrite IH. tauto.
Qed.

Lemma exec_Inv tr : forall w,
  Inv w -> balanced w tr -> withinCapacity w tr -> Inv (exec w tr).
Proof.
  induction tr as [|e tr IH]; intros w HI Hb Hc; simpl in *; [done|].
  destruct Hb as [Hp Hb], Hc as [Hc1 Hc].
  apply IH; try done. apply step_Inv; done.
Qed.

(** X1.  No call of a balanced sequence within capacity throws: a client
    that releases only what it holds never sees [rUnlock] or [unlock] fail,
    however its calls interleave with those of others and with the event
    loop. *)
Lemma balanced_never_throws tr e :
  balanced init (tr ++ [e]) -> withinCapacity init (tr ++ [e]) ->
  snd (step (exec init tr) e) = Normal.
Proof.
  intros Hb Hc. apply balanced_app in Hb as [Hb [Hp _]].
  apply withinCapacity_app in Hc as [Hc [Hc1 _]].
  apply step_Inv; try done. apply exec_Inv; auto using init_Inv.
Qed.

Lemma Inv_exclusive w : Inv w -> exclusive w.
Proof.
  intros (_ & _ & _ & _ & _ & Hph). unfold exclusive.
  destruct Hph as [H|[H|[H|[H|H]]]]; destruct_and!; split; lia.
Qed.

(** C1 (as amended).  For every balanced sequence of [rLock], [rUnlock],
    [lock] and [unlock] calls, interleaved in any way with the event loop
    running pending callbacks, that never has [rwmutexMaxReaders = 2^30] or
    more acquire-read calls outstanding: in every state reached along the
    sequence at most one writer holds the lock, and while a writer holds it
    no reader does. *)
Theorem writer_excludes_writers_and_readers (tr : list Event) (n : nat) :
  balanced init tr -> withinCapacity init tr -> exclusive (exec init (take n tr)).
Proof.
  intros Hb Hc. rewrite <- (take_drop n tr) in Hb, Hc.
  apply balanced_app in Hb as [Hb _]. apply withinCapacity_app in Hc as [Hc _].
  apply Inv_exclusive, exec_Inv; auto using init_Inv.
Qed.

(** The example of the specification: two readers acquire at once, a writer
    queues, the readers release, the writer's callback runs. *)
Lemma writer_excludes_witness :
  exclusive (exec init (take 6 [RLock 1; RLock 2; Lock 3; RUnlock; RUnlock; Tick 0])).
Proof.
  apply (writer_excludes_writers_and_readers
           [RLock 1; RLock 2; Lock 3; RUnlock; RUnlock; Tick 0] 6).
  - simpl. repeat split; lia.
  - vm_compute. repeat split; reflexivity.
Defined.

Example spec_example :
  let w1 := exec init [RLock 1; RLock 2] in
  let w2 := exec w1 [Lock 3] in
  let w3 := exec w2 [RUnlock; RUnlock; Tick 0] in
  (readers w1, writers w1) = (2%nat, 0%nat) /\
  (readers w2, writers w2, _writerWaiters (mu w2)) = (2%nat, 0%nat, [WriterCb 3]) /\
  (readers w3, writers w3) = (0%nat, 1%nat).
Proof. vm_compute. done. Qed.

(** ** At capacity *)

Lemma queue_readers c n : forall rc q,
  rc + Z.of_nat n < 0 ->
  exec (held rc q) (replicate n (RLock c))
  = held (rc + Z.of_nat n) (q ++ replicate n (ReaderCb c)).
Proof.
  induction n as [|n IH]; intros rc q H.
  - simpl. by rewrite Z.add_0_r, app_nil_r.
  - simpl replicate.
    change (exec (held rc q) (RLock c :: replicate n (RLock c)))
      with (exec (fst (step (held rc q) (RLock c))) (replicate n (RLock c))).
    assert (fst (step (held rc q) (RLock c)) = held (rc + 1) (q ++ [ReaderCb c])) as ->.
    { unfold step, rLock, held; simpl. destruct (Z.ltb_spec (rc + 1) 0); [done|lia]. }
    rewrite IH by lia. rewrite <- app_assoc. simpl. f_equal. lia.
Qed.

Lemma balanced_rlocks c n : forall w, balanced w (replicate n (RLock c)).
Proof. induction n as [|n IH]; intros w; simpl; [done|]. split; [done|apply IH]. Qed.

Lemma overflow_at (n : nat) :
  Z.of_nat n = rwmutexMaxReaders - 1 ->
  let tr := Lock 0 :: replicate n (RLock 1) ++ [RLock 1] in
  balanced init tr /\ writers (exec init tr) = 1%nat /\ readers (exec init tr) = 1%nat.
Proof.
  intros Hn tr. subst tr.
  pose proof max_val as Hmax.
  change (exec init (Lock 0 :: replicate n (RLock 1) ++ [RLock 1]))
    with (exec (held (- rwmutexMaxReaders) []) (replicate n (RLock 1) ++ [RLock 1])).
  split.
  - split; [done|]. apply balanced_app. split; [apply balanced_rlocks|]. simpl. done.
  - rewrite exec_snoc, queue_readers by lia.
    unfold step, rLock, held; simpl.
    destruct (Z.ltb_spec (- rwmutexMaxReaders + Z.of_nat n + 1) 0); [lia|]. done.
Qed.

(** C1, counterexample.  A writer holds the lock and [2^30] clients call
    [rLock]: the sequence is balanced (nothing is released), the first
    [2^30 - 1] readers are queued, and the increment of the last one brings
    [_readerCount] from [-1] to [0], which is not negative: its callback is
    called while the writer still holds the lock. *)
Lemma reader_joins_writer_at_capacity :
  balanced init overflowTrace /\
  writers (exec init overflowTrace) = 1%nat /\
  readers (exec init overflowTrace) = 1%nat /\
  ~ exclusive (exec init overflowTrace).
Proof.
  assert (balanced init overflowTrace /\
          writers (exec init overflowTrace) = 1%nat /\
          readers (exec init overflowTrace) = 1%nat) as (Hb & Hw & Hr).
  { apply (overflow_at (Z.to_nat (rwmutexMaxReaders - 1))).
    apply Z2Nat.id. rewrite max_val. lia. }
  split; [exact Hb|]. split; [exact Hw|]. split; [exact Hr|].
  unfold exclusive. intros [_ Hex]. rewrite Hw, Hr in Hex.
  specialize (Hex (Nat.lt_0_succ 0)). discriminate Hex.
Qed.

(** ** Misuse *)


(** The same for a reader: a writer holds the lock and a reader is queued
    behind it; nobody holds a read lock, and [rUnlock] returns normally. *)
Example rUnlock_not_detected_while_reader_waits :
  let w := exec init [Lock 1; RLock 2] in
  readers w = 0%nat /\ snd (rUnlock (mu w)) = Normal.
Proof. vm_compute. done. Qed.



(** ** Sharing, priority and wake-up *)

(** A writer waits for a reader, is woken and releases. *)
Lemma balanced_never_throws_witness :
  snd (step (exec init [RLock 1; Lock 2; RUnlock; Tick 0]) Unlock) = Normal.
Proof.
  apply (balanced_never_throws [RLock 1; Lock 2; RUnlock; Tick 0] Unlock).
  - simpl. repeat split; lia.
  - vm_compute. repeat split; reflexivity.
Defined.

Lemma reach_Inv tr : balanced init tr -> withinCapacity init tr -> Inv (exec init tr).
Proof. intros. apply exec_Inv; auto using init_Inv. Qed.

(** X2.  Readers share the lock: in every state reached by a balanced
    sequence within capacity in which no writer has claimed the lock,
    [rLock] calls its callback at once, however many readers hold the lock
    already, and queues nothing. *)
Theorem readers_enter_while_no_writer_claims (tr : list Event) (c : nat) :
  balanced init tr -> withinCapacity init tr ->
  let w := exec init tr in
  ~ writerClaimed w ->
  readers (fst (step w (RLock c))) = S (readers w) /\
  _readerWaiters (mu (fst (step w (RLock c)))) = [].
Proof.
  intros Hb Hc w Hn.
  assert (Inv w) as HI by (by apply reach_Inv).
  clearbody w. destruct w as [[[locked mq] rq wq rc rw] imm R W].
  destruct HI as (_ & _ & _ & _ & _ & Hph).
  pose proof max_val as Hmax.
  unfold writerClaimed, phase in *; simpl in *. unfold rLock; simpl.
  phases Hph; zb; simpl; try done.
  all: try lia.
  all: repeat match goal with H : exists _, _ |- _ => destruct H as [? ->] end; simpl in *; lia.
Qed.

(** X3.  Writers have priority over later readers: once a writer has
    claimed the lock (it holds it, waits for the earlier readers to drain, or
    has been woken), an [rLock] within capacity does not call its callback;
    the callback is appended to [_readerWaiters]. *)
Theorem reader_queues_behind_a_writer (tr : list Event) (c : nat) :
  balanced init tr -> withinCapacity init (tr ++ [RLock c]) ->
  let w := exec init tr in
  writerClaimed w ->
  readers (fst (step w (RLock c))) = readers w /\
  _readerWaiters (mu (fst (step w (RLock c)))) = _readerWaiters (mu w) ++ [ReaderCb c].
Proof.
  intros Hb Hc w Hn.
  apply withinCapacity_app in Hc as [Hc [Hcap _]]. fold w in Hcap.
  assert (Inv w) as HI by (by apply reach_Inv).
  clearbody w. destruct w as [[[locked mq] rq wq rc rw] imm R W].
  destruct HI as (_ & _ & _ & _ & _ & Hph).
  pose proof max_val as Hmax.
  unfold writerClaimed, phase, capacity, outstandingReads in *; simpl in *. unfold rLock; simpl.
  phases Hph; zb; simpl; try done.
  all: try lia.
Qed.

(** X4.  [_readerCount] accounts for the outstanding acquire-read calls: it
    is their number while no writer has claimed the lock (and then no reader
    is queued), and their number minus [rwmutexMaxReaders] while one has.
    [_readerWait] is zero unless a writer waits in [_writerWaiters]; then it
    is the positive number of readers that hold the lock or have been woken,
    the queued readers not counted. *)
Theorem reader_count_accounts_for_outstanding_reads (tr : list Event) :
  balanced init tr -> withinCapacity init tr ->
  let w := exec init tr in
  (~ writerClaimed w ->
     _readerCount (mu w) = Z.of_nat (outstandingReads w) /\ _readerWaiters (mu w) = []) /\
  (writerClaimed w ->
     _readerCount (mu w) = Z.of_nat (outstandingReads w) - rwmutexMaxReaders) /\
  (_writerWaiters (mu w) = [] -> _readerWait (mu w) = 0) /\
  (_writerWaiters (mu w) <> [] ->
     _readerWait (mu w) = Z.of_nat (readers w + countFn isReaderFn (immediates w)) /\
     0 < _readerWait (mu w)).
Proof.
  intros Hb Hc w.
  assert (Inv w) as HI by (by apply reach_Inv).
  clearbody w. destruct w as [[[locked mq] rq wq rc rw] imm R W].
  destruct HI as (_ & _ & _ & _ & _ & Hph).
  pose proof max_val as Hmax.
  unfold writerClaimed, phase, outstandingReads in *; simpl in *.
  phases Hph.
  all: repeat match goal with H : exists _, _ |- _ => destruct H as [? ->] end; simpl in *.
  all: split_and!; intros; try done; try lia.
  all: split; try done; try lia.
Qed.

(** X5.  When the writer that holds the lock calls [unlock]: the call
    returns normally, the writer holds the lock no longer, every queued
    reader is handed to [setImmediate] in queue order, the queue is emptied
    and [_readerCount] is the number of these readers; after them comes the
    arrow function of the next writer that waits for the base mutex, if
    there is one. *)
Theorem unlock_wakes_every_queued_reader (tr : list Event) :
  balanced init tr -> withinCapacity init tr ->
  let w := exec init tr in
  writers w = 1%nat ->
  let w' := fst (step w Unlock) in
  snd (step w Unlock) = Normal /\
  writers w' = 0%nat /\
  _readerWaiters (mu w') = [] /\
  _readerCount (mu w') = Z.of_nat (length (_readerWaiters (mu w))) /\
  immediates w'
  = immediates w ++ map User (_readerWaiters (mu w))
      ++ option_list (head (Mutex._waiters (base (mu w)))).
Proof.
  intros Hb Hc w HW.
  assert (Inv w) as HI by (by apply reach_Inv).
  clearbody w. destruct w as [[[locked mq] rq wq rc rw] imm R W].
  destruct HI as (_ & _ & _ & _ & Hcap & Hph).
  pose proof max_val as Hmax.
  unfold phase, outstandingReads in *; simpl in *.
  phases Hph; try lia.
  unfold step, unlock, Mutex.unlock; simpl. zb. simpl. rewrite wakeReaders_all. simpl.
  destruct mq as [|next mq]; simpl; split_and!; try done; lia.
Qed.

Lemma exec_cons w e tr : exec w (e :: tr) = exec (fst (step w e)) tr.
Proof. done. Qed.

(** One release while a writer waits for the readers to drain. *)
Lemma drain_step w c :
  Inv w -> _writerWaiters (mu w) = [WriterCb c] ->
  countFn isReaderFn (immediates w) = 0%nat ->
  let w1 := fst (step w RUnlock) in
  (0 < readers w)%nat /\ readers w1 = pred (readers w) /\
  countFn isReaderFn (immediates w1) = 0%nat /\
  (readers w = 1%nat ->
     _writerWaiters (mu w1) = [] /\ immediates w1 = immediates w ++ [User (WriterCb c)]) /\
  (readers w <> 1%nat ->
     _writerWaiters (mu w1) = [WriterCb c] /\ immediates w1 = immediates w).
Proof.
  destruct w as [[[locked mq] rq wq rc rw] imm R W].
  unfold Inv, phase, outstandingReads; simpl.
  pose proof max_val as Hmax.
  intros (Hrq & Hmq & Hmqb & Himm & Hcap & Hph) Hwq Hpr.
  unfold rUnlock; simpl.
  phases Hph; try done.
  match goal with H : exists _, _ |- _ => destruct H as [c' Hc'] end.
  inversion Hc'; subst c'.
  zb; simpl; zb; simpl.
  all: rewrite ?countFn_app; simpl.
  all: split_and!; try done; try lia.
  all: try (intros; split; [done|by rewrite ?app_nil_r]).
  all: intros; lia.
Qed.

Lemma drain c n : forall w,
  Inv w -> _writerWaiters (mu w) = [WriterCb c] ->
  countFn isReaderFn (immediates w) = 0%nat ->
  readers w = n ->
  (forall k, (k < n)%nat -> _writerWaiters (mu (exec w (replicate k RUnlock))) = [WriterCb c]) /\
  _writerWaiters (mu (exec w (replicate n RUnlock))) = [] /\
  immediates (exec w (replicate n RUnlock)) = immediates w ++ [User (WriterCb c)] /\
  readers (exec w (replicate n RUnlock)) = 0%nat.
Proof.
  induction n as [|n IH]; intros w HI Hwq Hpr Hn.
  - exfalso. destruct HI as (_ & _ & _ & _ & _ & Hph). unfold phase in Hph.
    rewrite Hwq, Hn, Hpr in Hph.
    destruct Hph as [H|[H|[H|[H|H]]]]; destruct_and!; try done. lia.
  - destruct (drain_step w c HI Hwq Hpr) as (Hpos & Hr & Hpr1 & Hlast & Hmore).
    assert (Inv (fst (step w RUnlock))) as HI1.
    { apply step_Inv; simpl; try done. }
    rewrite Hn in Hr, Hlast, Hmore. simpl in Hr.
    destruct n as [|n].
    + destruct (Hlast eq_refl) as [Hq Hi]. split_and!; try done.
      intros k Hk. assert (k = 0)%nat as -> by lia. done.
    + destruct Hmore as [Hq Hi]; [done|].
      destruct (IH _ HI1 Hq Hpr1 Hr) as (Hbefore & Hq' & Hi' & Hr').
      change (replicate (S (S n)) RUnlock) with (RUnlock :: replicate (S n) RUnlock).
      rewrite exec_cons. split_and!; try done.
      * intros [|k] Hk; [done|].
        change (replicate (S k) RUnlock) with (RUnlock :: replicate k RUnlock).
        rewrite exec_cons. apply Hbefore. lia.
      * by rewrite Hi', Hi.
Qed.

(** X6.  No wake-up is lost: when a writer waits in [_writerWaiters] and no
    woken reader is pending, it stays there while fewer than all the readers
    that hold the lock have released, and the [rUnlock] of the last one
    takes it off the queue and hands its callback to [setImmediate].  The
    readers queued behind the writer play no part. *)
Theorem last_reader_wakes_the_waiting_writer (tr : list Event) (c : nat) :
  balanced init tr -> withinCapacity init tr ->
  let w := exec init tr in
  _writerWaiters (mu w) = [WriterCb c] ->
  countFn isReaderFn (immediates w) = 0%nat ->
  (forall k, (k < readers w)%nat ->
     _writerWaiters (mu (exec w (replicate k RUnlock))) = [WriterCb c]) /\
  let w' := exec w (replicate (readers w) RUnlock) in
  _writerWaiters (mu w') = [] /\
  immediates w' = immediates w ++ [User (WriterCb c)] /\
  readers w' = 0%nat.
Proof.
  intros Hb Hc w Hwq Hpr.
  apply drain; try done. apply exec_Inv; auto using init_Inv.
Qed.

Lemma last_reader_wakes_witness :
  let w := exec init [RLock 1; RLock 2; Lock 3; RLock 4] in
  (forall k, (k < readers w)%nat ->
     _writerWaiters (mu (exec w (replicate k RUnlock))) = [WriterCb 3]) /\
  let w' := exec w (replicate (readers w) RUnlock) in
  _writerWaiters (mu w') = [] /\
  immediates w' = immediates w ++ [User (WriterCb 3)] /\
  readers w' = 0%nat.
Proof.
  apply (last_reader_wakes_the_waiting_writer [RLock 1; RLock 2; Lock 3; RLock 4] 3).
  - simpl. repeat split; lia.
  - vm_compute. repeat split; reflexivity.
  - reflexivity.
  - reflexivity.
Defined.

(** A reader holds the lock and a writer waits; readers and writers come
    and go. *)
Lemma readers_enter_witness :
  let w := exec init [RLock 1; RLock 2] in
  readers (fst (step w (RLock 3))) = S (readers w) /\
  _readerWaiters (mu (fst (step w (RLock 3)))) = [].
Proof.
  apply (readers_enter_while_no_writer_claims [RLock 1; RLock 2] 3).
  - simpl. repeat split; lia.
  - vm_compute. repeat split; reflexivity.
  - unfold writerClaimed. simpl. lia.
Defined.

Lemma reader_queues_witness :
  let w := exec init [RLock 1; Lock 2] in
  readers (fst (step w (RLock 3))) = readers w /\
  _readerWaiters (mu (fst (step w (RLock 3)))) = _readerWaiters (mu w) ++ [ReaderCb 3].
Proof.
  apply (reader_queues_behind_a_writer [RLock 1; Lock 2] 3).
  - simpl. repeat split; lia.
  - vm_compute. repeat split; reflexivity.
  - unfold writerClaimed. simpl. lia.
Defined.

Lemma reader_count_witness :
  let w := exec init [RLock 1; Lock 2; RLock 3] in
  (~ writerClaimed w ->
     _readerCount (mu w) = Z.of_nat (outstandingReads w) /\ _readerWaiters (mu w) = []) /\
  (writerClaimed w ->
     _readerCount (mu w) = Z.of_nat (outstandingReads w) - rwmutexMaxReaders) /\
  (_writerWaiters (mu w) = [] -> _readerWait (mu w) = 0) /\
  (_writerWaiters (mu w) <> [] ->
     _readerWait (mu w) = Z.of_nat (readers w + countFn isReaderFn (immediates w)) /\
     0 < _readerWait (mu w)).
Proof.
  apply (reader_count_accounts_for_outstanding_reads [RLock 1; Lock 2; RLock 3]).
  - simpl. repeat split; lia.
  - vm_compute. repeat split; reflexivity.
Defined.

Lemma unlock_wakes_witness :
  let w := exec init [Lock 1; RLock 2; RLock 3; Lock 4] in
  let w' := fst (step w Unlock) in
  snd (step w Unlock) = Normal /\
  writers w' = 0%nat /\
  _readerWaiters (mu w') = [] /\
  _readerCount (mu w') = Z.of_nat (length (_readerWaiters (mu w))) /\
  immediates w'
  = immediates w ++ map User (_readerWaiters (mu w))
      ++ option_list (head (Mutex._waiters (base (mu w)))).
Proof.
  apply (unlock_wakes_every_queued_reader [Lock 1; RLock 2; RLock 3; Lock 4]).
  - simpl. repeat split; lia.
  - vm_compute. repeat split; reflexivity.
  - reflexivity.
Defined.

End RWMutexFacts.

(** * Properties of the request coalescer *)

Module CoalescerFacts.
Import Coalescer.

Section Lists.
Context {A : Type}.
Implicit Types h t : list A.

Lemma lookup_fresh0 h x t : (h ++ x :: t) !! length h = Some x.
Proof. by apply list_lookup_middle. Qed.

Lemma lookup_fresh1 h x y t : (h ++ x :: y :: t) !! S (length h) = Some y.
Proof.
  change (h ++ x :: y :: t) with (h ++ [x] ++ y :: t). rewrite app_assoc.
  apply list_lookup_middle. rewrite length_app. simpl. lia.
Qed.

Lemma lookup_fresh2 h x y z t : (h ++ x :: y :: z :: t) !! S (S (length h)) = Some z.
Proof.
  change (h ++ x :: y :: z :: t) with (h ++ [x; y] ++ z :: t). rewrite app_assoc.
  apply list_lookup_middle. rewrite length_app. simpl. lia.
Qed.

Lemma insert_fresh0 h x x' t : <[length h := x']> (h ++ x :: t) = h ++ x' :: t.
Proof. replace (length h) with (length h + 0)%nat by lia. by rewrite insert_app_r. Qed.

Lemma insert_fresh1 h x y y' t : <[S (length h) := y']> (h ++ x :: y :: t) = h ++ x :: y' :: t.
Proof. replace (S (length h)) with (length h + 1)%nat by lia. by rewrite insert_app_r. Qed.

Lemma insert_fresh2 h x y z z' t :
  <[S (S (length h)) := z']> (h ++ x :: y :: z :: t) = h ++ x :: y :: z' :: t.
Proof. replace (S (S (length h))) with (length h + 2)%nat by lia. by rewrite insert_app_r. Qed.

End Lists.

Section Scenario.
Context {V E : Type}.
Local Abbreviation State := (State V E).
Local Abbreviation Settled := (Settled V E).
Local Abbreviation ProviderReturn := (ProviderReturn V E).
Local Abbreviation Job := (Job V E).

Implicit Types (s : State) (o : Settled).

Lemma first_call s key c0 :
  cache s !! key = None ->
  call c0 key (ReturnsPromise None) s = pendingState s key c0 [].
Proof.
  intros Hk. unfold call, wrap. rewrite Hk. simpl.
  unfold finallyPromise, alloc, then_, set_cache, set_heap, logInvocation. simpl.
  rewrite lookup_app_l_Some with (x := mkPromise None [] true) by apply lookup_fresh0.
  simpl. rewrite <- app_assoc. simpl. rewrite insert_fresh0.
  rewrite length_app. simpl. rewrite Nat.add_1_r.
  rewrite lookup_fresh1. simpl. rewrite insert_fresh1. done.
Qed.

Lemma attached_call s key c0 rs c ret :
  call c key ret (pendingState s key c0 rs) = pendingState s key c0 (rs ++ [Caller c]).
Proof.
  unfold call, wrap, pendingState. simpl. rewrite lookup_insert_eq. simpl.
  unfold then_. simpl. rewrite lookup_fresh0. simpl.
  unfold set_heap. simpl. rewrite insert_fresh0. done.
Qed.

Lemma attached_calls s key c0 (cs : list (nat * ProviderReturn)) : forall rs,
  callAll key cs (pendingState s key c0 rs)
  = pendingState s key c0 (rs ++ map (fun cr => Caller cr.1) cs).
Proof.
  induction cs as [|[c ret] cs IH]; intros rs; simpl.
  - by rewrite app_nil_r.
  - change (callAll key ((c, ret) :: cs) (pendingState s key c0 rs))
      with (callAll key cs (call c key ret (pendingState s key c0 rs))).
    rewrite attached_call, IH, <- app_assoc. done.
Qed.


Lemma provider_settles s key c0 rs o :
  providerSettles (length (heap s)) o (pendingState s key c0 rs) = settledState s key c0 rs o true.
Proof.
  unfold providerSettles, pendingState, settle. simpl. rewrite lookup_fresh0. simpl.
  unfold enqueue, set_heap. simpl. rewrite insert_fresh0. done.
Qed.

Lemma cleanup_runs s key c0 rs o ext :
  jobs s = [] ->
  microtask (settledState s key c0 rs o ext)
  = cleanedState s key c0 (map (fun r => React r o) rs) o ext.
Proof.
  intros Hj. unfold microtask, settledState, cleanedState. simpl. rewrite Hj. simpl.
  unfold alloc, enqueue, set_cache, set_heap. simpl.
  rewrite length_app. simpl. rewrite <- app_assoc. simpl.
  replace (length (heap s) + 2)%nat with (S (S (length (heap s)))) by lia. done.
Qed.

Lemma observers_run (cs : list nat) o : forall (js : list Job) c h inv obs,
  runMicrotasks (length cs) (mkState c h (map (fun c => React (Caller c) o) cs ++ js) inv obs)
  = mkState c h js inv (obs ++ map (fun c => (c, o)) cs).
Proof.
  induction cs as [|c' cs IH]; intros js c h inv obs; simpl.
  - by rewrite app_nil_r.
  - unfold microtask. simpl. unfold observe. simpl. rewrite IH, <- app_assoc. done.
Qed.

Lemma idle_microtasks n : forall s, jobs s = [] -> runMicrotasks n s = s.
Proof.
  induction n as [|n IH]; intros s H; simpl; [done|].
  unfold microtask. rewrite H. by apply IH.
Qed.

Lemma runMicrotasks_add n m s : runMicrotasks (n + m) s = runMicrotasks m (runMicrotasks n s).
Proof. revert s. induction n as [|n IH]; intros s; simpl; [done|]. apply IH. Qed.

Lemma drained s key c0 (cs : list nat) o ext :
  runMicrotasks (length cs + 4) (cleanedState s key c0 (map (fun c => React (Caller c) o) cs) o ext)
  = finalState s key c0 cs o ext.
Proof.
  rewrite runMicrotasks_add. unfold cleanedState. rewrite observers_run.
  simpl. unfold microtask. simpl.
  unfold settle. simpl. rewrite lookup_fresh2. simpl.
  unfold enqueue, set_heap. simpl. rewrite insert_fresh2.
  unfold then_. simpl. rewrite lookup_fresh2. simpl.
  unfold settle. simpl. rewrite lookup_fresh1. simpl. rewrite insert_fresh1.
  unfold observe, finalState. simpl. by rewrite <- app_assoc.
Qed.

Lemma map_map_callers (cs : list (nat * ProviderReturn)) o :
  map (fun r => React r o) (map (fun cr => Caller cr.1) cs)
  = map (fun c => React (Caller c) o) (cs.*1).
Proof. induction cs as [|[c r] cs IH]; simpl; [done|]. by rewrite IH. Qed.

(** C2.  The first call for [key] invokes the provider, which returns a
    pending promise; [N] further calls with the same key are issued while it
    is pending (whatever the provider would return to them); the provider
    then settles its promise with [o] and the microtasks run.  The provider
    was invoked exactly once, for the first call, and every one of the
    [N + 1] clients observes [o]: the same success value or the same
    failure. *)
Theorem concurrent_calls_share_one_invocation
    (s : State) (key : string) (c0 : nat) (cs : list (nat * ProviderReturn)) (o : Settled) (n : nat) :
  cache s !! key = None ->
  jobs s = [] ->
  (length cs + 5 <= n)%nat ->
  let pending := callAll key cs (call c0 key (ReturnsPromise None) s) in
  let final := runMicrotasks n (providerSettles (length (heap s)) o pending) in
  invocations pending = invocations s ++ [key] /\
  invocations final = invocations s ++ [key] /\
  observed final = observed s ++ map (fun c => (c, o)) (cs.*1) ++ [(c0, o)] /\
  jobs final = [].
Proof.
  intros Hk Hj Hn pending final.
  assert (pending = pendingState s key c0 (map (fun cr => Caller cr.1) cs)) as Hp.
  { subst pending. rewrite first_call by done. by rewrite attached_calls. }
  assert (final = finalState s key c0 (cs.*1) o true) as Hf.
  { subst final. rewrite Hp, provider_settles.
    replace n with (1 + ((length (cs.*1) + 4) + (n - (length cs + 5))))%nat
      by (rewrite length_fmap; lia).
    rewrite runMicrotasks_add. simpl runMicrotasks at 2.
    rewrite cleanup_runs by done. rewrite map_map_callers.
    rewrite runMicrotasks_add, drained. by rewrite idle_microtasks. }
  rewrite Hp, Hf. done.
Qed.


Lemma first_call_value s key c0 v :
  cache s !! key = None ->
  call c0 key (ReturnsValue v) s = settledState s key c0 [] (Fulfilled v) false.
Proof.
  intros Hk. unfold call, wrap. rewrite Hk. simpl.
  unfold finallyPromise, alloc, then_, set_cache, set_heap, logInvocation. simpl.
  rewrite lookup_app_l_Some with (x := mkPromise (Some (Fulfilled v)) [] false) by apply lookup_fresh0.
  simpl. unfold enqueue. simpl. rewrite <- app_assoc. simpl.
  rewrite length_app. simpl. rewrite Nat.add_1_r.
  unfold then_. simpl. rewrite lookup_fresh1. simpl.
  unfold set_heap. simpl. rewrite insert_fresh1. done.
Qed.

Lemma first_call_settled s key c0 o :
  cache s !! key = None ->
  call c0 key (ReturnsPromise (Some o)) s = settledState s key c0 [] o true.
Proof.
  intros Hk. unfold call, wrap. rewrite Hk. simpl.
  unfold finallyPromise, alloc, then_, set_cache, set_heap, logInvocation. simpl.
  rewrite lookup_app_l_Some with (x := mkPromise (Some o) [] true) by apply lookup_fresh0.
  simpl. unfold enqueue. simpl. rewrite <- app_assoc. simpl.
  rewrite length_app. simpl. rewrite Nat.add_1_r.
  unfold then_. simpl. rewrite lookup_fresh1. simpl.
  unfold set_heap. simpl. rewrite insert_fresh1. done.
Qed.

Lemma late_call s key c0 rs o ext c ret :
  call c key ret (settledState s key c0 rs o ext) = settledState s key c0 (rs ++ [Caller c]) o ext.
Proof.
  unfold call, wrap, settledState. simpl. rewrite lookup_insert_eq. simpl.
  unfold then_. simpl. rewrite lookup_fresh0. simpl.
  unfold enqueue. simpl. rewrite map_app. simpl. by rewrite <- app_assoc.
Qed.

Lemma late_calls s key c0 o ext (cs : list (nat * ProviderReturn)) : forall rs,
  callAll key cs (settledState s key c0 rs o ext)
  = settledState s key c0 (rs ++ map (fun cr => Caller cr.1) cs) o ext.
Proof.
  induction cs as [|[c ret] cs IH]; intros rs; simpl.
  - by rewrite app_nil_r.
  - change (callAll key ((c, ret) :: cs) (settledState s key c0 rs o ext))
      with (callAll key cs (call c key ret (settledState s key c0 rs o ext))).
    rewrite late_call, IH, <- app_assoc. done.
Qed.

Lemma cache_settle p o s : cache (settle p o s) = cache s.
Proof. unfold settle. destruct (heap s !! p) as [pr|]; [|done]. by destruct (settled pr). Qed.

Lemma cache_then p r s : cache (then_ p r s) = cache s.
Proof. unfold then_. destruct (heap s !! p) as [pr|]; [|done]. by destruct (settled pr). Qed.

Lemma microtask_keeps_absent key s : cache s !! key = None -> cache (microtask s) !! key = None.
Proof.
  intros H. unfold microtask. destruct (jobs s) as [|[[k d|d|c] o|x o|d x] rest]; simpl; try done.
  - apply lookup_delete_None. by right.
  - by rewrite cache_settle.
  - by rewrite cache_settle.
  - by rewrite cache_then.
Qed.

Lemma microtasks_keep_absent key n : forall s,
  cache s !! key = None -> cache (runMicrotasks n s) !! key = None.
Proof.
  induction n as [|n IH]; intros s H; simpl; [done|]. by apply IH, microtask_keeps_absent.
Qed.

Lemma invocations_settle p o s : invocations (settle p o s) = invocations s.
Proof. unfold settle. destruct (heap s !! p) as [pr|]; [|done]. by destruct (settled pr). Qed.

Lemma invocations_then p r s : invocations (then_ p r s) = invocations s.
Proof. unfold then_. destruct (heap s !! p) as [pr|]; [|done]. by destruct (settled pr). Qed.

Lemma invocations_microtask s : invocations (microtask s) = invocations s.
Proof.
  unfold microtask. destruct (jobs s) as [|[[k d|d|c] o|x o|d x] rest]; simpl; try done.
  - by rewrite invocations_settle.
  - by rewrite invocations_settle.
  - by rewrite invocations_then.
Qed.

Lemma invocations_microtasks n : forall s, invocations (runMicrotasks n s) = invocations s.
Proof.
  induction n as [|n IH]; intros s; simpl; [done|]. by rewrite IH, invocations_microtask.
Qed.

Lemma fresh_invocation s key c ret :
  cache s !! key = None -> invocations (call c key ret s) = invocations s ++ [key].
Proof.
  intros Hk. unfold call, wrap. rewrite Hk.
  destruct ret as [v|st|e]; simpl; try done.
  all: unfold finallyPromise, alloc; simpl; by rewrite !invocations_then.
Qed.

(** C3 (as amended).  The first call for [key] invokes the provider; clients
    [before] attach; the call settles with [o] (at once if the provider
    returned a plain value or a settled promise); clients [after] call
    before any microtask has run.  Then the entry for [key] is still in the
    cache although the call has settled, and the provider has been invoked
    once.  As soon as one microtask has run (the clean-up that [wrap]
    registered first on the promise), and from then on, the entry is gone,
    however many clients attached, and a call with [key] invokes the provider
    afresh. *)
Theorem entry_removed_by_cleanup_microtask
    (s : State) (key : string) (c0 : nat) (first : ProviderReturn)
    (before after : list (nat * ProviderReturn)) (o : Settled) :
  cache s !! key = None ->
  jobs s = [] ->
  settlesAs first o ->
  let s1 := callAll key before (call c0 key first s) in
  let s2 := callAll key after (settleIfPending first (length (heap s)) o s1) in
  settledFor key s2 /\
  invocations s2 = invocations s ++ [key] /\
  forall m,
    cache (runMicrotasks (S m) s2) !! key = None /\
    forall c ret,
      invocations (call c key ret (runMicrotasks (S m) s2)) = invocations s ++ [key; key].
Proof.
  intros Hk Hj Hs s1 s2.
  assert (exists rs ext, s2 = settledState s key c0 rs o ext) as (rs & ext & Hs2).
  { subst s1 s2. destruct first as [v|[o'|]|e]; simpl in *; try done; subst.
    - rewrite first_call_value by done. rewrite !late_calls. eauto.
    - rewrite first_call_settled by done. rewrite !late_calls. eauto.
    - rewrite first_call by done. rewrite attached_calls, provider_settles, late_calls. eauto. }
  rewrite Hs2. split_and!.
  - exists (length (heap s)), (mkPromise (Some o) [] ext), o. simpl.
    rewrite lookup_insert_eq, lookup_fresh0. done.
  - done.
  - intros m.
    assert (cache (runMicrotasks (S m) (settledState s key c0 rs o ext)) !! key = None) as Hnone.
    { simpl. apply microtasks_keep_absent. rewrite cleanup_runs by done. simpl.
      apply lookup_delete_None. by left. }
    split; [done|]. intros c ret.
    rewrite fresh_invocation by done. rewrite invocations_microtasks. simpl.
    by rewrite <- app_assoc.
Qed.

End Scenario.
Section Interleavings.
Context {V E : Type}.
Local Abbreviation State := (State V E).
Local Abbreviation Settled := (Settled V E).
Local Abbreviation ProviderReturn := (ProviderReturn V E).
Local Abbreviation Job := (Job V E).
Local Abbreviation Promise := (Promise V E).
Local Abbreviation Event := (Event V E).

Implicit Types (s : State) (o : Settled) (pr : Promise).

Lemma init_SingleFlight : SingleFlight (init : State).
Proof.
  split; simpl.
  - intros key p (pr & H & _). simpl in H. by rewrite lookup_nil in H.
  - intros key H. inversion H.
  - constructor.
  - intros p pr H. simpl in H. by rewrite lookup_nil in H.
Qed.

Lemma omap_jobKey_react (rs : list Reaction) (o : Settled) :
  omap jobKey (map (fun r => React r o) rs) = omap finallyKey rs.
Proof. induction rs as [|r rs IH]; [done|]. cbn. destruct (finallyKey r); cbn; by rewrite <- IH. Qed.

Lemma settle_SingleFlight p o s : SingleFlight s -> SingleFlight (settle p o s).
Proof.
  intros [J1 J2 J3 J4]. unfold settle.
  destruct (heap s !! p) as [pr|] eqn:Hp; [|done].
  destruct (settled pr) eqn:Hs; [done|].
  assert (p < length (heap s))%nat as Hlt by (by eapply lookup_lt_Some).
  split; simpl.
  - intros key q (pr' & Hq & Hs' & Hk); simpl in *.
    destruct (decide (q = p)) as [->|Hne].
    + rewrite list_lookup_insert_eq in Hq by done. by inversion Hq; subst.
    + rewrite list_lookup_insert_ne in Hq by done. apply J1. by exists pr'.
  - intros key Hk; simpl in *. rewrite omap_app, omap_jobKey_react in Hk.
    apply elem_of_app in Hk as [Hk|Hk].
    + destruct (J2 key Hk) as (q & pr' & Hc & Hq & Hs').
      exists q, pr'. split_and!; try done.
      destruct (decide (q = p)) as [->|Hne].
      * rewrite Hp in Hq. inversion Hq; subst. rewrite Hs in Hs'. by destruct Hs'.
      * by rewrite list_lookup_insert_ne.
    + exists p, (mkPromise (Some o) [] (external pr)). split_and!.
      * apply J1. by exists pr.
      * by rewrite list_lookup_insert_eq.
      * by eexists.
  - rewrite omap_app, omap_jobKey_react. apply NoDup_app. split_and!; [done| |by eapply J4].
    intros key Hk Hk'. destruct (J2 key Hk) as (q & pr' & Hc & Hq & Hs').
    assert (cache s !! key = Some p) as Hc' by (apply J1; by exists pr).
    rewrite Hc in Hc'. inversion Hc'; subst. rewrite Hp in Hq. inversion Hq; subst.
    rewrite Hs in Hs'. by destruct Hs'.
  - intros q pr' Hq; simpl in *. destruct (decide (q = p)) as [->|Hne].
    + rewrite list_lookup_insert_eq in Hq by done. inversion Hq; subst. simpl. constructor.
    + rewrite list_lookup_insert_ne in Hq by done. by eapply J4.
Qed.


Lemma then_SingleFlight p r s : finallyKey r = None -> SingleFlight s -> SingleFlight (then_ p r s).
Proof.
  intros Hr [J1 J2 J3 J4]. unfold then_.
  destruct (heap s !! p) as [pr|] eqn:Hp; [|done].
  assert (p < length (heap s))%nat as Hlt by (by eapply lookup_lt_Some).
  destruct (settled pr) as [o|] eqn:Hs.
  - split; simpl; try done.
    + intros key Hk. rewrite omap_app in Hk. simpl in Hk. rewrite Hr in Hk. simpl in Hk.
      rewrite app_nil_r in Hk. by apply J2.
    + rewrite omap_app. simpl. rewrite Hr. simpl. by rewrite app_nil_r.
  - assert (omap finallyKey (reactions pr ++ [r]) = omap finallyKey (reactions pr)) as Hom.
    { rewrite omap_app. simpl. rewrite Hr. simpl. by rewrite app_nil_r. }
    split; simpl; try done.
    + intros key q (pr' & Hq & Hs' & Hk); simpl in *.
      destruct (decide (q = p)) as [->|Hne].
      * rewrite list_lookup_insert_eq in Hq by done. inversion Hq; subst. simpl in *.
        rewrite Hom in Hk. apply J1. by exists pr.
      * rewrite list_lookup_insert_ne in Hq by done. apply J1. by exists pr'.
    + intros key Hk. destruct (J2 key Hk) as (q & pr' & Hc & Hq & Hs').
      exists q, pr'. split_and!; try done.
      destruct (decide (q = p)) as [->|Hne].
      * rewrite Hp in Hq. inversion Hq; subst. rewrite Hs in Hs'. by destruct Hs'.
      * by rewrite list_lookup_insert_ne.
    + intros q pr' Hq; simpl in *. destruct (decide (q = p)) as [->|Hne].
      * rewrite list_lookup_insert_eq in Hq by done. inversion Hq; subst. simpl.
        rewrite Hom. by eapply J4.
      * rewrite list_lookup_insert_ne in Hq by done. by eapply J4.
Qed.

(** A fresh promise without reactions changes nothing. *)
Lemma alloc_SingleFlight st ext s : SingleFlight s -> SingleFlight (alloc st ext s).2.
Proof.
  intros [J1 J2 J3 J4]. split; simpl; try done.
  - intros key q (pr' & Hq & Hs' & Hk); simpl in *.
    apply lookup_app_Some in Hq as [Hq|[_ Hq]]; [apply J1; by exists pr'|].
    destruct (q - length (heap s))%nat; simpl in Hq; [|done].
    inversion Hq; subst. simpl in Hk. inversion Hk.
  - intros key Hk. destruct (J2 key Hk) as (q & pr' & Hc & Hq & Hs').
    exists q, pr'. split_and!; try done. by apply lookup_app_l_Some.
  - intros q pr' Hq; simpl in *.
    apply lookup_app_Some in Hq as [Hq|[_ Hq]]; [by eapply J4|].
    destruct (q - length (heap s))%nat; simpl in Hq; [|done].
    inversion Hq; subst. simpl. constructor.
Qed.


Lemma logInvocation_SingleFlight key s : SingleFlight s -> SingleFlight (logInvocation key s).
Proof. intros [J1 J2 J3 J4]. by split. Qed.

Lemma observe_SingleFlight c o s : SingleFlight s -> SingleFlight (observe c o s).
Proof. intros [J1 J2 J3 J4]. by split. Qed.

(** The cache miss: the provider's promise is entered in the cache and the
    clean-up is registered on it. *)
Lemma miss_SingleFlight key st ext s :
  SingleFlight s -> cache s !! key = None ->
  let s1 := (alloc st ext (logInvocation key s)).2 in
  let s2 := set_cache s1 (<[key := length (heap s)]> (cache s1)) in
  SingleFlight (finallyPromise (length (heap s)) key s2).2.
Proof.
  intros [J1 J2 J3 J4] Hmiss s1 s2. subst s1 s2.
  unfold finallyPromise, alloc, then_, set_cache, set_heap, logInvocation. simpl.
  rewrite lookup_app_l_Some with (x := mkPromise st [] ext)
    by (by apply list_lookup_middle).
  simpl. rewrite length_app. simpl.
  assert (forall k q, cache s !! k = Some q -> <[key := length (heap s)]> (cache s) !! k = Some q)
    as Hkeep.
  { intros k q Hk. rewrite lookup_insert_ne; [done|]. intros ->. congruence. }
  destruct st as [o|]; simpl.
  - (* the promise is settled already: the clean-up is queued *)
    split; simpl.
    + intros k q (pr & Hq & Hs & Hk); simpl in *.
      rewrite <- app_assoc in Hq. simpl in Hq.
      apply lookup_app_Some in Hq as [Hq|[_ Hq]]; [apply Hkeep, J1; by exists pr|].
      destruct (q - length (heap s))%nat as [|[|?]]; simpl in Hq; inversion Hq; subst; try done.
      simpl in Hk. inversion Hk.
    + intros k Hk. rewrite omap_app in Hk. simpl in Hk.
      apply elem_of_app in Hk as [Hk|Hk].
      * destruct (J2 k Hk) as (q & pr & Hc & Hq & Hs).
        exists q, pr. split_and!; [by apply Hkeep| |done].
        by do 2 apply lookup_app_l_Some.
      * apply list_elem_of_singleton in Hk as ->.
        exists (length (heap s)), (mkPromise (Some o) [] ext). split_and!.
        -- by rewrite lookup_insert_eq.
        -- apply lookup_app_l_Some. by apply list_lookup_middle.
        -- by eexists.
    + rewrite omap_app. simpl. apply NoDup_app. split_and!; [done| |apply NoDup_singleton].
      intros k Hk Hk'. apply list_elem_of_singleton in Hk' as ->.
      destruct (J2 key Hk) as (q & pr & Hc & _). congruence.
    + intros q pr Hq; simpl in *. rewrite <- app_assoc in Hq. simpl in Hq.
      apply lookup_app_Some in Hq as [Hq|[_ Hq]]; [by eapply J4|].
      destruct (q - length (heap s))%nat as [|[|?]]; simpl in Hq; inversion Hq; subst; simpl;
        constructor.
  - (* the promise is pending: the clean-up is registered *)
    rewrite <- app_assoc. simpl.
    rewrite insert_app_r_alt by lia. rewrite Nat.sub_diag. simpl.
    split; simpl.
    + intros k q (pr & Hq & Hs & Hk); simpl in *.
      apply lookup_app_Some in Hq as [Hq|[Hge Hq]]; [apply Hkeep, J1; by exists pr|].
      destruct (q - length (heap s))%nat as [|[|?]] eqn:Hd; simpl in Hq; inversion Hq; subst;
        simpl in Hk.
      * apply list_elem_of_singleton in Hk as ->.
        replace q with (length (heap s)) by lia. by rewrite lookup_insert_eq.
      * inversion Hk.
    + intros k Hk. destruct (J2 k Hk) as (q & pr & Hc & Hq & Hs).
      exists q, pr. split_and!; [by apply Hkeep| |done]. by apply lookup_app_l_Some.
    + done.
    + intros q pr Hq; simpl in *.
      apply lookup_app_Some in Hq as [Hq|[_ Hq]]; [by eapply J4|].
      destruct (q - length (heap s))%nat as [|[|?]]; simpl in Hq; inversion Hq; subst; simpl.
      * apply NoDup_singleton.
      * constructor.
Qed.

Lemma call_SingleFlight c key ret s : SingleFlight s -> SingleFlight (call c key ret s).
Proof.
  intros HI. unfold call, wrap.
  destruct (cache s !! key) as [p|] eqn:Hc.
  - by apply then_SingleFlight.
  - destruct ret as [v|st|e]; simpl.
    + pose proof (miss_SingleFlight key (Some (Fulfilled v)) false s HI Hc) as H.
      unfold finallyPromise, alloc in *. simpl in *. by apply then_SingleFlight.
    + pose proof (miss_SingleFlight key st true s HI Hc) as H.
      unfold finallyPromise, alloc in *. simpl in *. by apply then_SingleFlight.
    + by apply logInvocation_SingleFlight.
Qed.

Lemma pop_SingleFlight s j rest :
  SingleFlight s -> jobs s = j :: rest ->
  SingleFlight (mkState (cache s) (heap s) rest (invocations s) (observed s)).
Proof.
  intros [J1 J2 J3 J4] Hj. rewrite Hj in J2, J3. split; simpl; try done.
  - intros key Hk. apply J2. simpl. destruct (jobKey j); [by right|done].
  - simpl in J3. destruct (jobKey j); [by inversion J3|done].
Qed.

Lemma cleanup_SingleFlight s key d o rest :
  SingleFlight s -> jobs s = React (Finally key d) o :: rest ->
  SingleFlight (runJob (React (Finally key d) o)
         (mkState (cache s) (heap s) rest (invocations s) (observed s))).
Proof.
  intros [J1 J2 J3 J4] Hj. rewrite Hj in J2, J3. simpl in J2, J3.
  apply NoDup_cons in J3 as [Hnotin J3].
  destruct (J2 key) as (p & pr & Hc & Hp & Hs); [by left|].
  unfold runJob, alloc, enqueue, set_cache, set_heap. simpl.
  split; simpl.
  - intros k q (pr' & Hq & Hs' & Hk); simpl in *.
    apply lookup_app_Some in Hq as [Hq|[_ Hq]].
    + assert (cache s !! k = Some q) as Hkq by (apply J1; by exists pr').
      rewrite lookup_delete_ne; [done|]. intros ->.
      rewrite Hc in Hkq. inversion Hkq; subst. rewrite Hp in Hq. inversion Hq; subst.
      rewrite Hs' in Hs. by destruct Hs.
    + destruct (q - length (heap s))%nat; simpl in Hq; inversion Hq; subst.
      simpl in Hk. inversion Hk.
  - intros k Hk. rewrite omap_app in Hk. simpl in Hk. rewrite app_nil_r in Hk.
    destruct (J2 k) as (q & pr' & Hc' & Hq & Hs'); [by right|].
    exists q, pr'. split_and!; [|by apply lookup_app_l_Some|done].
    rewrite lookup_delete_ne; [done|]. by intros ->.
  - rewrite omap_app. simpl. by rewrite app_nil_r.
  - intros q pr' Hq; simpl in *.
    apply lookup_app_Some in Hq as [Hq|[_ Hq]]; [by eapply J4|].
    destruct (q - length (heap s))%nat; simpl in Hq; inversion Hq; subst. simpl. constructor.
Qed.

Lemma microtask_SingleFlight s : SingleFlight s -> SingleFlight (microtask s).
Proof.
  intros HI. unfold microtask. destruct (jobs s) as [|j rest] eqn:Hj; [done|].
  pose proof (pop_SingleFlight s j rest HI Hj) as Hpop.
  destruct j as [[key d|d|c] o|x o|d x].
  - by apply cleanup_SingleFlight.
  - by apply settle_SingleFlight.
  - by apply observe_SingleFlight.
  - by apply settle_SingleFlight.
  - by apply then_SingleFlight.
Qed.

Lemma step_SingleFlight s e : SingleFlight s -> SingleFlight (step s e).
Proof.
  intros HI. destruct e as [c key ret|p o|]; simpl.
  - by apply call_SingleFlight.
  - unfold providerSettles. destruct (heap s !! p) as [pr|]; [|done].
    destruct (external pr); [by apply settle_SingleFlight|done].
  - by apply microtask_SingleFlight.
Qed.

Lemma run_SingleFlight tr : forall s, SingleFlight s -> SingleFlight (run s tr).
Proof. induction tr as [|e tr IH]; intros s HI; simpl; [done|]. by apply IH, step_SingleFlight. Qed.

(** X7.  For every sequence of calls (with any keys), provider settlements
    and microtasks: while a call for [key] is pending, the wrapped operation
    called with [key] returns the pending promise and leaves the state as it
    is; the provider is not invoked. *)
Theorem single_flight (tr : list Event) (key : string) (p : nat) (ret : ProviderReturn) :
  let s := run init tr in
  inFlight key p s -> wrap key ret s = (Returned p, s).
Proof.
  intros s Hf. unfold wrap.
  assert (SingleFlight s) as [J1 _ _ _] by (apply run_SingleFlight, init_SingleFlight).
  by rewrite (J1 key p Hf).
Qed.

End Interleavings.

(** Three clients call for the same directory while the first call is
    pending; the listing then arrives. *)
Lemma concurrent_calls_witness :
  let s : Coalescer.State nat string := init in
  let cs := [(1%nat, ReturnsValue 8%nat); (2%nat, ReturnsPromise None)] in
  let pending := callAll "/src" cs (call 0 "/src" (ReturnsPromise None) s) in
  let final := runMicrotasks 7 (providerSettles (length (heap s)) (Fulfilled 5%nat) pending) in
  invocations pending = invocations s ++ ["/src"%string] /\
  invocations final = invocations s ++ ["/src"%string] /\
  observed final
    = observed s ++ map (fun c => (c, Fulfilled 5%nat)) (cs.*1) ++ [(0%nat, Fulfilled 5%nat)] /\
  jobs final = [].
Proof.
  apply (concurrent_calls_share_one_invocation (init : Coalescer.State nat string) "/src" 0
           [(1%nat, ReturnsValue 8%nat); (2%nat, ReturnsPromise None)] (Fulfilled 5%nat) 7).
  - reflexivity.
  - reflexivity.
  - simpl. lia.
Defined.

(** The same failure reaches every client. *)
Example concurrent_calls_share_failure :
  let s : Coalescer.State nat string := init in
  let pending := callAll "/src" [(1%nat, ReturnsPromise None)] (call 0 "/src" (ReturnsPromise None) s) in
  let final := runMicrotasks 6 (providerSettles 0 (Rejected "offline"%string) pending) in
  invocations final = ["/src"%string] /\
  observed final = [(1%nat, Rejected "offline"%string); (0%nat, Rejected "offline"%string)].
Proof. vm_compute. done. Qed.

Lemma entry_removed_witness :
  let s : Coalescer.State nat string := init in
  let s1 := callAll "/" [] (call 0 "/" (ReturnsValue 7%nat) s) in
  let s2 := callAll "/" [(1%nat, ReturnsValue 8%nat)]
              (settleIfPending (ReturnsValue 7%nat) (length (heap s)) (Fulfilled 7%nat) s1) in
  settledFor "/" s2 /\
  invocations s2 = invocations s ++ ["/"%string] /\
  forall m,
    cache (runMicrotasks (S m) s2) !! "/"%string = None /\
    forall c ret,
      invocations (call c "/" ret (runMicrotasks (S m) s2))
      = invocations s ++ ["/"%string; "/"%string].
Proof.
  apply (entry_removed_by_cleanup_microtask (init : Coalescer.State nat string) "/" 0
           (ReturnsValue 7%nat) [] [(1%nat, ReturnsValue 8%nat)] (Fulfilled 7%nat)).
  - reflexivity.
  - reflexivity.
  - reflexivity.
Defined.

(** C3, counterexample.  The provider returns a plain value, as the listing
    provider of the test suite does: [Promise.resolve(value)] is fulfilled
    when it is created, so the call for the key has settled when the wrapped
    function returns.  The entry is still in the cache, and a second call
    issued right after, in the same tick, does not invoke the provider. *)
Lemma settled_call_still_coalesces :
  let s1 : Coalescer.State nat string := call 0 "/" (ReturnsValue 7%nat) init in
  settledFor "/" s1 /\
  cache s1 !! "/"%string = Some 0%nat /\
  invocations s1 = ["/"%string] /\
  invocations (call 1 "/" (ReturnsValue 8%nat) s1) = ["/"%string].
Proof.
  split_and!; try reflexivity.
  exists 0%nat, (mkPromise (Some (Fulfilled 7%nat)) [] false), (Fulfilled 7%nat).
  split_and!; reflexivity.
Qed.

(** The same window with a provider that returns a promise: the promise has
    settled, the clean-up has not run yet. *)
Example settled_promise_still_coalesces :
  let s1 : Coalescer.State nat string :=
    providerSettles 0 (Fulfilled 7%nat) (call 0 "/" (ReturnsPromise None) init) in
  settledFor "/" s1 /\
  invocations (call 1 "/" (ReturnsPromise None) s1) = ["/"%string] /\
  invocations (call 1 "/" (ReturnsPromise None) (microtask s1)) = ["/"%string; "/"%string].
Proof.
  split_and!; try reflexivity.
  exists 0%nat, (mkPromise (Some (Fulfilled 7%nat)) [] true), (Fulfilled 7%nat).
  split_and!; reflexivity.
Qed.

Section Stale.
Context {V E : Type}.
Local Abbreviation State := (State V E).
Local Abbreviation Settled := (Settled V E).
Local Abbreviation ProviderReturn := (ProviderReturn V E).
Local Abbreviation Job := (Job V E).
Local Abbreviation Promise := (Promise V E).
Local Abbreviation Event := (Event V E).

Implicit Types (s : State) (o : Settled) (pr : Promise) (r : Reaction).

(** ** No entry of the cache is stale *)

Lemma then_inFlight key q p r s : inFlight key q s -> inFlight key q (then_ p r s).
Proof.
  intros (pr & Hq & Hs & Hk). unfold then_.
  destruct (heap s !! p) as [pr'|] eqn:Hp; [|by exists pr].
  destruct (settled pr') eqn:Hs'; [by exists pr|].
  assert (p < length (heap s))%nat as Hlt by (by eapply lookup_lt_Some).
  destruct (decide (q = p)) as [->|Hne].
  - rewrite Hp in Hq. inversion Hq; subst pr'.
    exists (mkPromise None (reactions pr ++ [r]) (external pr)). simpl.
    rewrite list_lookup_insert_eq by done. split_and!; try done.
    rewrite omap_app. apply elem_of_app. by left.
  - exists pr. simpl. by rewrite list_lookup_insert_ne.
Qed.

Lemma then_cache p r s : cache (then_ p r s) = cache s.
Proof.
  unfold then_. destruct (heap s !! p) as [pr|]; [|done]. by destruct (settled pr).
Qed.

Lemma then_jobs key p r s :
  key ∈ omap jobKey (jobs s) -> key ∈ omap jobKey (jobs (then_ p r s)).
Proof.
  intros H. unfold then_. destruct (heap s !! p) as [pr|]; [|done].
  destruct (settled pr); [|done]. simpl. rewrite omap_app. apply elem_of_app. by left.
Qed.

Lemma then_NoStaleEntry p r s : NoStaleEntry s -> NoStaleEntry (then_ p r s).
Proof.
  intros H key q Hc. rewrite then_cache in Hc.
  destruct (H key q Hc) as [Hf|Hj]; [left; by apply then_inFlight|right; by apply then_jobs].
Qed.

Lemma alloc_inFlight key q st ext s : inFlight key q s -> inFlight key q (alloc st ext s).2.
Proof.
  intros (pr & Hq & Hs & Hk). exists pr. simpl. split_and!; try done.
  by apply lookup_app_l_Some.
Qed.

Lemma settle_NoStaleEntry p o s : NoStaleEntry s -> NoStaleEntry (settle p o s).
Proof.
  intros H. unfold settle.
  destruct (heap s !! p) as [pr|] eqn:Hp; [|done].
  destruct (settled pr) eqn:Hs; [done|].
  assert (p < length (heap s))%nat as Hlt by (by eapply lookup_lt_Some).
  intros key q Hc. simpl in *.
  destruct (H key q Hc) as [(pr' & Hq & Hs' & Hk)|Hj].
  - destruct (decide (q = p)) as [->|Hne].
    + right. rewrite Hp in Hq. inversion Hq; subst pr'.
      rewrite omap_app, omap_jobKey_react. apply elem_of_app. by right.
    + left. exists pr'. simpl. by rewrite list_lookup_insert_ne.
  - right. rewrite omap_app. apply elem_of_app. by left.
Qed.

Lemma miss_NoStaleEntry key st ext s :
  NoStaleEntry s ->
  let s1 := (alloc st ext (logInvocation key s)).2 in
  let s2 := set_cache s1 (<[key := length (heap s)]> (cache s1)) in
  NoStaleEntry (finallyPromise (length (heap s)) key s2).2.
Proof.
  intros H s1 s2 k q Hc.
  unfold finallyPromise in *. simpl in *. rewrite then_cache in Hc. simpl in Hc.
  destruct (decide (k = key)) as [->|Hne].
  - rewrite lookup_insert_eq in Hc. inversion Hc; subst q. clear Hc.
    unfold then_. simpl.
    rewrite lookup_app_l_Some with (x := mkPromise st [] ext)
      by (by apply list_lookup_middle).
    simpl. destruct st as [o|]; simpl.
    + right. rewrite omap_app. apply elem_of_app. right. simpl. by left.
    + left. eexists. simpl. split_and!.
      * apply list_lookup_insert_eq. rewrite !length_app. simpl. lia.
      * done.
      * simpl. by left.
  - rewrite lookup_insert_ne in Hc by done.
    destruct (H k q Hc) as [Hf|Hj].
    + left. apply then_inFlight.
      apply (alloc_inFlight k q None false s2).
      destruct (alloc_inFlight k q st ext (logInvocation key s)) as (pr & ? & ? & ?).
      { destruct Hf as (pr & ? & ? & ?). by exists pr. }
      by exists pr.
    + right. by apply then_jobs.
Qed.

Lemma call_NoStaleEntry c key ret s : NoStaleEntry s -> NoStaleEntry (call c key ret s).
Proof.
  intros H. unfold call, wrap.
  destruct (cache s !! key) as [p|] eqn:Hc.
  - by apply then_NoStaleEntry.
  - destruct ret as [v|st|e]; simpl.
    + pose proof (miss_NoStaleEntry key (Some (Fulfilled v)) false s H) as H'.
      unfold finallyPromise, alloc in *. simpl in *. by apply then_NoStaleEntry.
    + pose proof (miss_NoStaleEntry key st true s H) as H'.
      unfold finallyPromise, alloc in *. simpl in *. by apply then_NoStaleEntry.
    + done.
Qed.

Lemma microtask_NoStaleEntry s : NoStaleEntry s -> NoStaleEntry (microtask s).
Proof.
  intros H. unfold microtask. destruct (jobs s) as [|j rest] eqn:Hj; [done|].
  set (s' := mkState (cache s) (heap s) rest (invocations s) (observed s)).
  assert (forall key q, cache s !! key = Some q -> jobKey j <> Some key ->
            inFlight key q s' \/ key ∈ omap jobKey rest) as Hpop.
  { intros key q Hc Hne. destruct (H key q Hc) as [Hf|Hk]; [by left|right].
    rewrite Hj in Hk. simpl in Hk. destruct (jobKey j) as [k|]; [|done].
    apply elem_of_cons in Hk as [->|Hk]; done. }
  assert (jobKey j = None -> NoStaleEntry s') as Hnone.
  { intros Hn key q Hc. apply (Hpop key q Hc). by rewrite Hn. }
  destruct j as [[key d|d|c] o|x o|d x]; simpl.
  - intros k q Hc. simpl in Hc.
    destruct (decide (k = key)) as [->|Hne]; [by rewrite lookup_delete_eq in Hc|].
    rewrite lookup_delete_ne in Hc by done.
    destruct (Hpop k q Hc) as [(pr & Hq & Hs & Hk)|Hk]; [simpl; congruence| |].
    + left. exists pr. simpl. split_and!; try done. by apply lookup_app_l_Some.
    + right. simpl. rewrite omap_app. apply elem_of_app. by left.
  - by apply settle_NoStaleEntry, Hnone.
  - by apply Hnone.
  - by apply settle_NoStaleEntry, Hnone.
  - by apply then_NoStaleEntry, Hnone.
Qed.

Lemma run_NoStaleEntry tr : forall s, NoStaleEntry s -> NoStaleEntry (run s tr).
Proof.
  induction tr as [|e tr IH]; intros s H; simpl; [done|]. apply IH.
  destruct e as [c key ret|p o|]; simpl.
  - by apply call_NoStaleEntry.
  - unfold providerSettles. destruct (heap s !! p) as [pr|]; [|done].
    destruct (external pr); [by apply settle_NoStaleEntry|done].
  - by apply microtask_NoStaleEntry.
Qed.

(** X8.  The cache retains no settled result: in every state reached by
    calls, provider settlements and microtasks, the promise of a cached key
    is pending with the clean-up registered on it, or the clean-up that
    deletes the entry waits in the microtask queue.  So when the microtask
    queue is empty, every cached key is a call in flight. *)
Theorem cache_holds_no_settled_result (tr : list Event) (key : string) (p : nat) :
  let s := run init tr in
  cache s !! key = Some p ->
  (inFlight key p s \/ exists d o, React (Finally key d) o ∈ jobs s) /\
  (jobs s = [] -> inFlight key p s).
Proof.
  intros s Hc.
  assert (NoStaleEntry s) as H.
  { apply run_NoStaleEntry. intros k q Hk. simpl in Hk. by rewrite lookup_empty in Hk. }
  destruct (H key p Hc) as [Hf|Hj].
  - split; [by left|done].
  - apply list_elem_of_omap in Hj as (j & Hin & Hkey).
    split.
    + right. destruct j as [[k d|d|c] o|x o|d x]; simpl in Hkey; try done.
      inversion Hkey; subst k. by exists d, o.
    + intros Hnil. rewrite Hnil in Hin. inversion Hin.
Qed.

End Stale.

(** One call is pending. *)
Lemma single_flight_witness :
  let s : Coalescer.State nat string := run init [Call 0 "/src" (ReturnsPromise None)] in
  wrap "/src" (ReturnsValue 9%nat) s = (Returned 0%nat, s).
Proof.
  apply (single_flight [Call 0 "/src" (ReturnsPromise None)] "/src" 0 (ReturnsValue 9%nat)).
  exists (mkPromise None [Finally "/src" 1] true).
  split_and!; [reflexivity|reflexivity|]. simpl. apply list_elem_of_here.
Defined.

Lemma cache_entry_witness :
  let s : Coalescer.State nat string := run init [Call 0 "/src" (ReturnsPromise None)] in
  (inFlight "/src" 0 s \/ exists d o, React (Finally "/src" d) o ∈ jobs s) /\
  (jobs s = [] -> inFlight "/src" 0 s).
Proof.
  apply (cache_holds_no_settled_result [Call 0 "/src" (ReturnsPromise None)] "/src" 0).
  reflexivity.
Defined.

End CoalescerFacts.

(** * Properties of the DynamicRequest backend *)

Module DynamicRequestFacts.
Import DynamicRequest.

Section Loader.
Context {T Err : Type}.
Variable join : string -> string -> string.
Variable messageOf : Err -> string.
Variable opt_readDirectory : string -> option T -> ProviderResult Err (option (list (@FileEntry T))).
Variable opt_stat : option (string -> option T -> ProviderResult Err Z).
Variable opt_readFile : string -> option T -> ProviderResult Err (list byte).
Variable dirStats : Stats.

Local Abbreviation next := (next join opt_readDirectory).
Local Abbreviation loadEntry := (loadEntry join opt_readDirectory).
Local Abbreviation stat := (stat messageOf opt_stat dirStats).
Local Abbreviation open := (open messageOf opt_readFile).
Local Abbreviation wrapped_stat := (wrapped_stat join messageOf opt_readDirectory opt_stat dirStats).
Local Abbreviation wrapped_open := (wrapped_open join messageOf opt_readDirectory opt_readFile).
Local Abbreviation wrapped_readdir := (wrapped_readdir join opt_readDirectory).
Local Abbreviation Index := (gmap string (@Inode T)).

(** ** The index only grows *)

Lemma addPathFast_loaded (idx : Index) path node q :
  loadedDir idx q -> loadedDir (addPathFast idx path node) q.
Proof.
  intros (e & ls & Hq). unfold addPathFast.
  destruct (splitPath path) as [parent name].
  destruct (idx !! parent) as [[?|l e' ls']|] eqn:Hp; try (by exists e, ls).
  destruct (idx !! path) eqn:Hpath; try (by exists e, ls).
  assert (path <> q) by congruence.
  unfold loadedDir. rewrite lookup_insert_ne by done.
  destruct (decide (parent = q)) as [->|Hne].
  - rewrite lookup_insert_eq. rewrite Hq in Hp. inversion Hp; subst. eauto.
  - rewrite lookup_insert_ne by done. eauto.
Qed.

Lemma addPathFast_isDir (idx : Index) path node q :
  isDir idx q -> isDir (addPathFast idx path node) q.
Proof.
  intros (l & e & ls & Hq). unfold addPathFast.
  destruct (splitPath path) as [parent name].
  destruct (idx !! parent) as [[?|l' e' ls']|] eqn:Hp; try (by exists l, e, ls).
  destruct (idx !! path) eqn:Hpath; try (by exists l, e, ls).
  assert (path <> q) by congruence.
  unfold isDir. rewrite lookup_insert_ne by done.
  destruct (decide (parent = q)) as [->|Hne].
  - rewrite lookup_insert_eq. eauto.
  - rewrite lookup_insert_ne by done. eauto.
Qed.

Lemma insertAll_loaded p (entries : list (@FileEntry T)) : forall (idx : Index) q,
  loadedDir idx q -> loadedDir (foldl (insertEntry join p) idx entries) q.
Proof.
  induction entries as [|[[name ft] ext] entries IH]; intros idx q H; simpl; [done|].
  apply IH. by apply addPathFast_loaded.
Qed.

Lemma insertAll_isDir p (entries : list (@FileEntry T)) : forall (idx : Index) q,
  isDir idx q -> isDir (foldl (insertEntry join p) idx entries) q.
Proof.
  induction entries as [|[[name ft] ext] entries IH]; intros idx q H; simpl; [done|].
  apply IH. by apply addPathFast_isDir.
Qed.

Lemma setEntriesLoaded_loaded (idx : Index) p q :
  loadedDir idx q -> loadedDir (setEntriesLoaded idx p) q.
Proof.
  intros (e & ls & Hq). unfold setEntriesLoaded.
  destruct (idx !! p) as [[?|l e' ls']|] eqn:Hp; try (by exists e, ls).
  unfold loadedDir. destruct (decide (p = q)) as [->|Hne].
  - rewrite lookup_insert_eq. eauto.
  - rewrite lookup_insert_ne by done. eauto.
Qed.

Lemma setEntriesLoaded_marks (idx : Index) p :
  isDir idx p -> loadedDir (setEntriesLoaded idx p) p.
Proof.
  intros (l & e & ls & Hp). unfold setEntriesLoaded, loadedDir. rewrite Hp.
  rewrite lookup_insert_eq. eauto.
Qed.

Lemma next_loaded segs : forall p fs q,
  loadedDir (_index fs) q -> loadedDir (_index (next segs p fs).2) q.
Proof.
  induction segs as [|seg rest IH]; intros p fs q H; simpl; [done|].
  destruct (getInode (_index fs) (join p seg)) as [[st e|[] e ls]|] eqn:Hi; simpl; try done.
  - by apply IH.
  - unfold _readDirectory. destruct (opt_readDirectory (join p seg) e) as [l|err]; simpl; [|done].
    apply IH. simpl. apply setEntriesLoaded_loaded, insertAll_loaded. done.
Qed.





Lemma next_marks segs : forall p fs,
  (next segs p fs).1 = Resolved ->
  exists n,
    Forall (loadedDir (_index (next segs p fs).2)) (take n (accumulate join p segs)) /\
    (n = length (accumulate join p segs) \/
     exists q, accumulate join p segs !! n = Some q /\ ~ isDir (_index (next segs p fs).2) q).
Proof.
  induction segs as [|seg rest IH]; intros p fs Hres; simpl in *.
  { exists O. split; [constructor|by left]. }
  set (p' := join p seg) in *.
  destruct (getInode (_index fs) p') as [[st e|[] e ls]|] eqn:Hi; simpl in *.
  - exists O. split; [constructor|right]. exists p'. split; [done|].
    intros (l & e' & ls' & H). unfold getInode in Hi. congruence.
  - destruct (IH _ _ Hres) as (n & Hall & Hend).
    exists (S n). split.
    + simpl. constructor; [|done]. apply next_loaded. simpl. unfold getInode in Hi. by exists e, ls.
    + destruct Hend as [->|Hq]; [by left|by right].
  - unfold _readDirectory in *. destruct (opt_readDirectory p' e) as [l|err]; simpl in *; [|done].
    destruct (IH _ _ Hres) as (n & Hall & Hend).
    exists (S n). split.
    + simpl. constructor; [|done]. apply next_loaded. simpl.
      apply setEntriesLoaded_marks, insertAll_isDir. unfold getInode in Hi. by exists false, e, ls.
    + destruct Hend as [->|Hq]; [by left|by right].
  - exists O. split; [constructor|right]. exists p'. split; [done|].
    intros (l & e' & ls' & H). unfold getInode in Hi. congruence.
Qed.

Lemma next_failed segs : forall p fs,
  exists tr,
    log (next segs p fs).2 = log fs ++ tr /\
    forall q, Failed q ∈ tr ->
      exists e ext ls n fs1,
        (next segs p fs).1 = Rejected e /\
        opt_readDirectory q ext = Rejects e /\
        accumulate join p segs !! n = Some q /\
        next (take n segs) p fs = (Resolved, fs1) /\
        Forall (loadedDir (_index fs1)) (take n (accumulate join p segs)) /\
        _index (next segs p fs).2 = _index fs1 /\
        log (next segs p fs).2 = log fs1 ++ [Lookup q (IsDir false); ReadDirectory q; Failed q] /\
        getInode (_index (next segs p fs).2) q = Some (DirInode false ext ls).
Proof.
  induction segs as [|seg rest IH]; intros p fs; simpl.
  { exists []. rewrite app_nil_r. split; [done|]. intros q H. inversion H. }
  set (p' := join p seg).
  destruct (getInode (_index fs) p') as [[st e|[] e ls]|] eqn:Hi; simpl.
  - exists [Lookup p' IsFile]. split; [done|]. intros q H.
    apply list_elem_of_singleton in H. discriminate.
  - destruct (IH p' (record (Lookup p' (IsDir true)) fs)) as (tr & Hlog & Hfail).
    exists (Lookup p' (IsDir true) :: tr). split.
    { rewrite Hlog. simpl. by rewrite <- app_assoc. }
    intros q H. apply elem_of_cons in H as [H|H]; [discriminate|].
    destruct (Hfail q H) as (err & ext & ls' & n & fs1 & Ho & Hp & Hn & Hpre & Hall & Hidx & Hl & Hq).
    exists err, ext, ls', (S n), fs1. split_and!; try done.
    + simpl. fold p'. rewrite Hi. done.
    + simpl. constructor; [|done].
      replace fs1 with (next (take n rest) p' (record (Lookup p' (IsDir true)) fs)).2 by (by rewrite Hpre).
      apply next_loaded. simpl. unfold getInode in Hi. by exists e, ls.
  - unfold _readDirectory. destruct (opt_readDirectory p' e) as [l|err] eqn:Hprov; simpl.
    + match goal with |- context [next rest p' ?f] =>
        destruct (IH p' f) as (tr & Hlog & Hfail); set (fs2 := f) in * end.
      exists (Lookup p' (IsDir false) :: ReadDirectory p' :: Listed p' :: tr). split.
      { rewrite Hlog. simpl. by rewrite <- !app_assoc. }
      intros q H. repeat (apply elem_of_cons in H as [H|H]; [discriminate|]).
      destruct (Hfail q H) as (err & ext & ls' & n & fs1 & Ho & Hp & Hn & Hpre & Hall & Hidx & Hl & Hq).
      exists err, ext, ls', (S n), fs1. split_and!; try done.
      * simpl. fold p'. rewrite Hi. unfold _readDirectory. rewrite Hprov. done.
      * simpl. constructor; [|done].
        replace fs1 with (next (take n rest) p' fs2).2 by (by rewrite Hpre).
        apply next_loaded. simpl.
        apply setEntriesLoaded_marks, insertAll_isDir. unfold getInode in Hi. by exists false, e, ls.
    + exists [Lookup p' (IsDir false); ReadDirectory p'; Failed p']. split.
      { simpl. by rewrite <- !app_assoc. }
      intros q H. repeat (apply elem_of_cons in H as [H|H]; [try discriminate|]); [|inversion H].
      inversion H; subst q.
      exists err, e, ls, O, fs. split_and!; try done.
      simpl. by rewrite <- !app_assoc.
  - exists [Lookup p' Absent]. split; [done|]. intros q H.
    apply list_elem_of_singleton in H. discriminate.
Qed.




(** ** How the walk goes on and ends *)






(** C6.  When the listing provider fails for a directory [q] during
    [loadEntry], with [e]:
    - the promise of [loadEntry] rejects with [e];
    - [q] is the [n]-th accumulated prefix, and the index that [loadEntry]
      leaves is the index [_index fs1] that the walk over the [n] earlier
      segments produced: what was inserted and marked for them is all there,
      and each of these earlier prefixes is a directory with
      [entriesLoaded = true];
    - the failed request is the last event of the trace: the walk goes no
      further;
    - [q] is still a directory with [entriesLoaded = false]. *)
Theorem listing_failure_aborts_without_rollback (path : string) (loadBase : bool) (fs : FS) (q : string) :
  Failed q ∈ drop (length (log fs)) (log (loadEntry path loadBase fs).2) ->
  exists e ext ls n fs1,
    (loadEntry path loadBase fs).1 = Rejected e /\
    opt_readDirectory q ext = Rejects e /\
    accumulate join "" (pathList path loadBase) !! n = Some q /\
    next (take n (pathList path loadBase)) "" fs = (Resolved, fs1) /\
    Forall (loadedDir (_index fs1)) (take n (accumulate join "" (pathList path loadBase))) /\
    _index (loadEntry path loadBase fs).2 = _index fs1 /\
    log (loadEntry path loadBase fs).2
      = log fs1 ++ [Lookup q (IsDir false); ReadDirectory q; Failed q] /\
    getInode (_index (loadEntry path loadBase fs).2) q = Some (DirInode false ext ls).
Proof.
  unfold DynamicRequest.loadEntry.
  destruct (next_failed (pathList path loadBase) "" fs) as (tr & Hlog & Hfail).
  intros H. rewrite Hlog, drop_app_length in H. exact (Hfail q H).
Qed.

(** C7.  With flags that request write access, [open] calls back with
    [EPERM] for every path and every state of the index, whether the path
    exists or not; so does the method as installed on the prototype, whatever
    the preceding [loadEntry] did. *)
Theorem open_for_writing_is_denied (path : string) (flags : FileFlag) (fs : FS) :
  isWriteable flags = true ->
  (open path flags fs).1 = CbErr (mkApiError EPERM path) /\
  (wrapped_open path flags fs).1.2 = CbErr (mkApiError EPERM path).
Proof.
  intros Hw. unfold DynamicRequest.wrapped_open, finallyPromise, DynamicRequest.open.
  rewrite Hw. split; [done|].
  destruct (loadEntry path false fs) as [[|e] fs1]; done.
Qed.

(** C9.  However the promise of [loadEntry] settles, the installed [stat],
    [open] and [readdir] run the raw operation on the file system as
    [loadEntry] left it, and the callback receives what the raw operation
    produces; the rejection of [loadEntry] only settles the promise that
    [finallyPromise] returns, which nobody holds.  In particular, when
    [loadEntry] rejected and the path is absent from the partially populated
    index, the callback receives [ENOENT]. *)
Theorem raw_operation_runs_after_failed_preload (path : string) (flags : FileFlag) (fs : FS) :
  let pre := loadEntry path false fs in
  let preBase := loadEntry path true fs in
  wrapped_stat path fs = (pre.1, (stat path pre.2).1, (stat path pre.2).2) /\
  wrapped_open path flags fs = (pre.1, (open path flags pre.2).1, (open path flags pre.2).2) /\
  wrapped_readdir path fs = (preBase.1, (readdir path preBase.2).1, (readdir path preBase.2).2) /\
  (forall e, pre.1 = Rejected e -> getInode (_index pre.2) path = None ->
     (wrapped_stat path fs).1.2 = CbErr (mkApiError ENOENT path) /\
     (isWriteable flags = false ->
      (wrapped_open path flags fs).1.2 = CbErr (mkApiError ENOENT path))) /\
  (forall e, preBase.1 = Rejected e -> getInode (_index preBase.2) path = None ->
     (wrapped_readdir path fs).1.2 = CbErr (mkApiError ENOENT path)).
Proof.
  intros pre preBase.
  unfold DynamicRequest.wrapped_stat, DynamicRequest.wrapped_open, DynamicRequest.wrapped_readdir, finallyPromise.
  fold pre preBase.
  destruct pre as [[|e] fs1], preBase as [[|e'] fs2]; simpl.
  all: destruct (stat path fs1) as [a1 f1] eqn:H1; destruct (open path flags fs1) as [a2 f2] eqn:H2.
  all: destruct (readdir path fs2) as [a3 f3] eqn:H3; simpl.
  all: split_and!; try done.
  all: try (intros e0 He0 Hnone; try discriminate).
  all: unfold DynamicRequest.stat, DynamicRequest.open, readdir in *.
  all: try rewrite Hnone in *.
  all: try (split; [congruence|]; intros Hw; rewrite Hw in H2; congruence).
  all: congruence.
Qed.

(** C10.  For the root path the segment list of [loadEntry('/', false)] is
    empty: [loadEntry] resolves and leaves the index and the trace as they
    were, and the installed [stat] and [open] on ['/'] do not invoke the
    listing provider. *)
Theorem root_needs_no_listing (flags : FileFlag) (fs : FS) :
  pathList "/" false = [] /\
  loadEntry "/" false fs = (Resolved, fs) /\
  listingCalls (log (wrapped_stat "/" fs).2) = listingCalls (log fs) /\
  listingCalls (log (wrapped_open "/" flags fs).2) = listingCalls (log fs).
Proof.
  split_and!; try done.
  - unfold DynamicRequest.wrapped_stat, finallyPromise. simpl.
    unfold DynamicRequest.stat.
    destruct (getInode (_index fs) "/") as [[st e|l e ls]|]; simpl; try done.
    destruct (size st <? 0), opt_stat as [f|]; simpl; try done.
    destruct (f "/"%string e); simpl; unfold listingCalls; rewrite omap_app; simpl; by rewrite app_nil_r.
  - unfold DynamicRequest.wrapped_open, finallyPromise. simpl.
    unfold DynamicRequest.open.
    destruct (isWriteable flags); simpl; [done|].
    destruct (getInode (_index fs) "/") as [[st e|l e ls]|]; simpl; try done.
    destruct (pathExistsAction flags); simpl; try done.
    destruct (fileData st); simpl; [done|].
    destruct (opt_readFile "/"%string e); simpl; unfold listingCalls; rewrite omap_app; simpl; by rewrite app_nil_r.
Qed.

End Loader.
(** ** Instances

    The file system is the one of [test/tests/fs/DynamicRequest/load.ts]. *)


(** A path below a file: the walk stops at the file and resolves. *)
Example walk_stops_at_a_file :
  let r := loadEntry posixJoin dirMap "/README.md/x/y" false create in
  r.1 = Resolved /\
  log r.2 = [Lookup "/" (IsDir false); ReadDirectory "/"; Listed "/"; Lookup "/README.md" IsFile].
Proof. vm_compute. done. Qed.

Lemma listing_failure_witness :
  exists e ext ls n fs1,
    (loadEntry posixJoin flakyDirMap "/test/fixtures/static" true create).1 = Rejected e /\
    flakyDirMap "/test" ext = Rejects e /\
    accumulate posixJoin "" (pathList "/test/fixtures/static" true) !! n = Some "/test"%string /\
    next posixJoin flakyDirMap (take n (pathList "/test/fixtures/static" true)) "" create
      = (Resolved, fs1) /\
    Forall (loadedDir (_index fs1))
      (take n (accumulate posixJoin "" (pathList "/test/fixtures/static" true))) /\
    _index (loadEntry posixJoin flakyDirMap "/test/fixtures/static" true create).2 = _index fs1 /\
    log (loadEntry posixJoin flakyDirMap "/test/fixtures/static" true create).2
      = log fs1 ++ [Lookup "/test" (IsDir false); ReadDirectory "/test"; Failed "/test"] /\
    getInode (_index (loadEntry posixJoin flakyDirMap "/test/fixtures/static" true create).2) "/test"
      = Some (DirInode false ext ls).
Proof.
  apply (listing_failure_aborts_without_rollback posixJoin flakyDirMap
           "/test/fixtures/static" true create "/test").
  vm_compute. do 5 apply list_elem_of_further. apply list_elem_of_here.
Defined.

Lemma open_for_writing_witness :
  (open (fun e : string => e) (fun _ _ => Resolves []) "/no/such/file" (mkFileFlag true NOP)
        (@create unit)).1
    = CbErr (mkApiError EPERM "/no/such/file") /\
  (wrapped_open posixJoin (fun e : string => e) dirMap (fun _ _ => Resolves [])
                "/no/such/file" (mkFileFlag true NOP) create).1.2
    = CbErr (mkApiError EPERM "/no/such/file").
Proof.
  apply (open_for_writing_is_denied posixJoin (fun e : string => e) dirMap
           (fun _ _ => Resolves []) "/no/such/file" (mkFileFlag true NOP) create).
  reflexivity.
Defined.

(** A read-only open of the same path is not found. *)
Example open_for_reading_is_not_found :
  (wrapped_open posixJoin (fun e : string => e) dirMap (fun _ _ => Resolves [])
                "/no/such/file" (mkFileFlag false NOP) create).1.2
    = CbErr (mkApiError ENOENT "/no/such/file").
Proof. vm_compute. reflexivity. Qed.

(** The listing of [/test] fails: the promise rejects, and [stat] calls back
    with [ENOENT]. *)
Example failed_preload_surfaces_as_not_found :
  (wrapped_stat posixJoin (fun e : string => e) flakyDirMap None
                (mkStats DIRECTORY 4096 365 None) "/test/fixtures" create).1
    = (Rejected "offline"%string, CbErr (mkApiError ENOENT "/test/fixtures")).
Proof. vm_compute. reflexivity. Qed.

(** ** Loading again, and what the operations keep *)

Section Reload.
Context {T Err : Type}.
Variable join : string -> string -> string.
Variable messageOf : Err -> string.
Variable opt_readDirectory : string -> option T -> ProviderResult Err (option (list (@FileEntry T))).
Variable opt_stat : option (string -> option T -> ProviderResult Err Z).
Variable opt_readFile : string -> option T -> ProviderResult Err (list byte).
Variable dirStats : Stats.
Variable closeFile : NoSyncFile -> option ApiError.
Variable toString : list byte -> string -> ApiError + string.

Local Abbreviation next := (next join opt_readDirectory).
Local Abbreviation loadEntry := (loadEntry join opt_readDirectory).
Local Abbreviation stat := (stat messageOf opt_stat dirStats).
Local Abbreviation open := (open messageOf opt_readFile).
Local Abbreviation wrapped_open := (wrapped_open join messageOf opt_readDirectory opt_readFile).
Local Abbreviation wrapped_readdir := (wrapped_readdir join opt_readDirectory).
Local Abbreviation readFile :=
  (readFile join messageOf opt_readDirectory opt_readFile closeFile toString).
Local Abbreviation Index := (gmap string (@Inode T)).

(** ** Directories are listed once *)

Lemma next_listings segs : forall p (fs : FS),
  exists tr,
    log (next segs p fs).2 = log fs ++ tr /\
    NoDup (listingCalls tr) /\
    forall q, loadedDir (_index fs) q -> q ∉ listingCalls tr.
Proof.
  induction segs as [|seg rest IH]; intros p fs; simpl.
  { exists []. rewrite app_nil_r. split_and!; [done|constructor|]. intros q _ H. inversion H. }
  set (p' := join p seg).
  destruct (getInode (_index fs) p') as [[st e|[] e ls]|] eqn:Hi; simpl.
  - exists [Lookup p' IsFile]. split_and!; [done|constructor|]. intros q _ H. inversion H.
  - destruct (IH p' (record (Lookup p' (IsDir true)) fs)) as (tr & Hlog & Hnd & Hno).
    exists (Lookup p' (IsDir true) :: tr). simpl in *.
    rewrite Hlog, <- app_assoc. split_and!; done.
  - unfold _readDirectory. destruct (opt_readDirectory p' e) as [l|err]; simpl.
    + match goal with |- context [next rest p' ?f] =>
        destruct (IH p' f) as (tr & Hlog & Hnd & Hno) end.
      exists (Lookup p' (IsDir false) :: ReadDirectory p' :: Listed p' :: tr). simpl in *.
      rewrite Hlog, <- !app_assoc. split_and!; [done| |].
      * change (NoDup (p' :: listingCalls tr)). constructor; [|done].
        apply Hno. apply setEntriesLoaded_marks, insertAll_isDir.
        unfold getInode in Hi. by exists false, e, ls.
      * intros q Hq. change (q ∉ p' :: listingCalls tr).
        apply not_elem_of_cons. split.
        -- intros ->. destruct Hq as (e' & ls' & Hq). unfold getInode in Hi. congruence.
        -- apply Hno. by apply setEntriesLoaded_loaded, insertAll_loaded.
    + exists [Lookup p' (IsDir false); ReadDirectory p'; Failed p']. simpl.
      rewrite <- !app_assoc. split_and!; [done| |].
      * change (NoDup [p']). apply NoDup_singleton.
      * intros q Hq. change (q ∉ [p']). apply not_elem_of_cons. split; [|apply not_elem_of_nil].
        intros ->. destruct Hq as (e' & ls' & Hq). unfold getInode in Hi. congruence.
  - exists [Lookup p' Absent]. split_and!; [done|constructor|]. intros q _ H. inversion H.
Qed.

(** A walk over prefixes that are loaded, up to one that is not a
    directory, asks no provider and changes nothing but the trace. *)
Lemma next_settled segs : forall p (fs : FS) n,
  Forall (loadedDir (_index fs)) (take n (accumulate join p segs)) ->
  (n = length (accumulate join p segs) \/
   exists q, accumulate join p segs !! n = Some q /\ ~ isDir (_index fs) q) ->
  exists tr,
    next segs p fs = (Resolved, mkFS (_index fs) (log fs ++ tr)) /\
    listingCalls tr = [] /\ providerCalls tr = [].
Proof.
  induction segs as [|seg rest IH]; intros p fs n Hall Hend; simpl.
  { exists []. rewrite app_nil_r. by destruct fs. }
  set (p' := join p seg) in *.
  destruct n as [|n]; simpl in *.
  - destruct Hend as [Hend|(q & Hq & Hnd)]; [done|]. inversion Hq; subst q.
    destruct (getInode (_index fs) p') as [[st e|l e ls]|] eqn:Hi; simpl.
    + by exists [Lookup p' IsFile].
    + exfalso. apply Hnd. unfold getInode in Hi. by exists l, e, ls.
    + by exists [Lookup p' Absent].
  - fold p' in Hall. apply Forall_cons in Hall as [(e & ls & Hp') Hall].
    unfold getInode. rewrite Hp'. simpl.
    destruct (IH p' (record (Lookup p' (IsDir true)) fs) n) as (tr & Hnext & Hl & Hp); try done.
    { destruct Hend as [Hend|Hend]; [left; by injection Hend|by right]. }
    exists (Lookup p' (IsDir true) :: tr). rewrite Hnext. simpl.
    rewrite <- app_assoc. done.
Qed.

(** X9.  [loadEntry] never asks the listing provider for a directory whose
    [entriesLoaded] mark is set when the walk starts. *)
Theorem loaded_directory_is_not_listed_again (path : string) (loadBase : bool) (fs : FS) (q : string) :
  loadedDir (_index fs) q ->
  q ∉ listingCalls (drop (length (log fs)) (log (loadEntry path loadBase fs).2)).
Proof.
  intros Hq. unfold DynamicRequest.loadEntry.
  destruct (next_listings (pathList path loadBase) "" fs) as (tr & Hlog & _ & Hno).
  rewrite Hlog, drop_app_length. by apply Hno.
Qed.

(** X10.  Within one [loadEntry], no directory is requested from the
    listing provider twice, whatever [paths.join] makes of the segments. *)
Theorem no_directory_is_listed_twice (path : string) (loadBase : bool) (fs : FS) :
  NoDup (listingCalls (drop (length (log fs)) (log (loadEntry path loadBase fs).2))).
Proof.
  unfold DynamicRequest.loadEntry.
  destruct (next_listings (pathList path loadBase) "" fs) as (tr & Hlog & Hnd & _).
  by rewrite Hlog, drop_app_length.
Qed.

(** X12.  [loadEntry] is idempotent: after it resolved, the same
    [loadEntry] on the file system it left resolves again, makes no listing
    request and leaves the index as it is. *)
Theorem loadEntry_again_asks_no_provider (path : string) (loadBase : bool) (fs : FS) :
  (loadEntry path loadBase fs).1 = Resolved ->
  let fs1 := (loadEntry path loadBase fs).2 in
  (loadEntry path loadBase fs1).1 = Resolved /\
  _index (loadEntry path loadBase fs1).2 = _index fs1 /\
  listingCalls (log (loadEntry path loadBase fs1).2) = listingCalls (log fs1).
Proof.
  intros Hres fs1. unfold DynamicRequest.loadEntry in *.
  destruct (next_marks join opt_readDirectory _ _ _ Hres) as (n & Hall & Hend).
  destruct (next_settled (pathList path loadBase) "" fs1 n Hall Hend) as (tr & Hnext & Hl & _).
  rewrite Hnext. simpl. split_and!; try done.
  unfold listingCalls in *. rewrite omap_app, Hl. by rewrite app_nil_r.
Qed.

(** The walk goes through loaded prefixes to the first one that is not
    loaded, and asks for its listing first. *)
Lemma next_resume segs : forall p (fs : FS) n q ext ls,
  Forall (loadedDir (_index fs)) (take n (accumulate join p segs)) ->
  accumulate join p segs !! n = Some q ->
  _index fs !! q = Some (DirInode false ext ls) ->
  exists tr rest,
    log (next segs p fs).2 = log fs ++ tr /\ listingCalls tr = q :: rest.
Proof.
  induction segs as [|seg rest IH]; intros p fs n q ext ls Hall Hn Hq; simpl in *; [done|].
  set (p' := join p seg) in *.
  destruct n as [|n]; simpl in *.
  - inversion Hn; subst q. unfold getInode. rewrite Hq. simpl.
    unfold _readDirectory. destruct (opt_readDirectory p' ext) as [l|err]; simpl.
    + match goal with |- context [next rest p' ?f] =>
        destruct (next_listings rest p' f) as (tr & Hlog & _) end.
      exists (Lookup p' (IsDir false) :: ReadDirectory p' :: Listed p' :: tr), (listingCalls tr).
      simpl in *. rewrite Hlog, <- !app_assoc. done.
    + exists [Lookup p' (IsDir false); ReadDirectory p'; Failed p'], [].
      simpl. rewrite <- !app_assoc. done.
  - apply Forall_cons in Hall as [(e & ls' & Hp') Hall].
    unfold getInode. rewrite Hp'. simpl.
    destruct (IH p' (record (Lookup p' (IsDir true)) fs) n q ext ls) as (tr & rest' & Hlog & Hl);
      try done.
    exists (Lookup p' (IsDir true) :: tr), rest'. simpl in *.
    rewrite Hlog, <- app_assoc. done.
Qed.

(** X13.  After the listing of [q] failed, a second [loadEntry] of the same
    path starts its listing requests at [q]: the directories before it were
    left loaded and are not fetched again. *)
Theorem retry_resumes_at_the_failed_directory (path : string) (loadBase : bool) (fs : FS) (q : string) :
  Failed q ∈ drop (length (log fs)) (log (loadEntry path loadBase fs).2) ->
  let fs1 := (loadEntry path loadBase fs).2 in
  exists rest,
    listingCalls (drop (length (log fs1)) (log (loadEntry path loadBase fs1).2)) = q :: rest.
Proof.
  intros H fs1. subst fs1. unfold DynamicRequest.loadEntry in *.
  destruct (next_failed join opt_readDirectory (pathList path loadBase) "" fs) as (tr & Hlog & Hfail).
  rewrite Hlog, drop_app_length in H.
  destruct (Hfail q H) as (e & ext & ls & n & fs0 & _ & _ & Hn & _ & Hall & Hidx & _ & Hq).
  set (fs1 := (next (pathList path loadBase) "" fs).2) in *. rewrite <- Hidx in Hall.
  destruct (next_resume (pathList path loadBase) "" fs1 n q ext ls Hall Hn Hq)
    as (tr' & rest & Hlog' & Hl).
  exists rest. by rewrite Hlog', drop_app_length.
Qed.

(** ** What the operations keep for the next call *)

Lemma open_cached (fs : FS) path flags st e buf :
  _index fs !! path = Some (FileInode st e) -> fileData st = Some buf ->
  isWriteable flags = false -> pathExistsAction flags = NOP ->
  open path flags fs = (CbOk (mkNoSyncFile path flags st buf), fs).
Proof.
  intros Hi Hd Hw Ha. unfold DynamicRequest.open, getInode. by rewrite Hw, Hi, Ha, Hd.
Qed.

Lemma open_success (fs fs1 : FS) path flags fd :
  open path flags fs = (CbOk fd, fs1) ->
  isWriteable flags = false /\ pathExistsAction flags = NOP /\
  fd = mkNoSyncFile path flags (file_stat fd) (file_buffer fd) /\
  fileData (file_stat fd) = Some (file_buffer fd) /\
  (exists e, _index fs1 !! path = Some (FileInode (file_stat fd) e)) /\
  (_index fs1 = _index fs \/ _index fs1 = setData (_index fs) path (file_stat fd)).
Proof.
  unfold DynamicRequest.open, getInode.
  destruct (isWriteable flags); [done|].
  destruct (_index fs !! path) as [[st e|l e ls]|] eqn:Hi; try done.
  destruct (pathExistsAction flags); try done.
  destruct (fileData st) as [buf|] eqn:Hd.
  - intros H. inversion H; subst. simpl. split_and!; try done; eauto.
  - destruct (opt_readFile path e) as [content|err]; [|done].
    intros H. inversion H; subst. simpl. split_and!; try done; [|by right].
    exists e. unfold setData. rewrite Hi. by rewrite lookup_insert_eq.
Qed.

Lemma setData_loaded (idx : Index) p st q :
  loadedDir idx q -> loadedDir (setData idx p st) q.
Proof.
  intros (e & ls & Hq). unfold setData, loadedDir.
  destruct (idx !! p) as [[st' e'|l e' ls']|] eqn:Hp; eauto.
  rewrite lookup_insert_ne; [eauto|]. intros ->. congruence.
Qed.

Lemma setData_isDir (idx : Index) p st q :
  isDir (setData idx p st) q -> isDir idx q.
Proof.
  unfold setData, isDir.
  destruct (idx !! p) as [[st' e'|l e' ls']|] eqn:Hp; try done.
  intros (l & e & ls & Hq). destruct (decide (p = q)) as [->|Hne].
  - by rewrite lookup_insert_eq in Hq.
  - rewrite lookup_insert_ne in Hq by done. eauto.
Qed.

(** X14.  [open] keeps the content it fetched: after a successful [open],
    every later read-only [open] of the path whose flag takes an existing
    file as it is gets the same buffer and the same [Stats], invokes no
    provider and leaves the file system unchanged. *)
Theorem open_serves_cached_content (path : string) (flags flags' : FileFlag) (fs fs1 : FS)
    (fd : NoSyncFile) :
  open path flags fs = (CbOk fd, fs1) ->
  isWriteable flags' = false -> pathExistsAction flags' = NOP ->
  open path flags' fs1 = (CbOk (mkNoSyncFile path flags' (file_stat fd) (file_buffer fd)), fs1).
Proof.
  intros H Hw Ha. apply open_success in H as (_ & _ & _ & Hd & (e & Hi) & _).
  by eapply open_cached.
Qed.

(** X15.  [stat] keeps a size that is not negative: after a successful
    [stat] whose result has [size >= 0], the next [stat] gives the same
    [Stats] and invokes no provider.  A negative size that the stat provider
    resolved with is stored as well, and then the next [stat] of the file
    invokes the provider again. *)
Theorem stat_reuses_resolved_size (path : string) (fs fs1 : FS) (st : Stats) :
  stat path fs = (CbOk st, fs1) ->
  (0 <= size st -> stat path fs1 = (CbOk st, fs1)) /\
  (size st < 0 -> kindOf (getInode (_index fs) path) = IsFile -> opt_stat <> None ->
   log (stat path fs1).2 = log fs1 ++ [StatCall path]).
Proof.
  unfold DynamicRequest.stat, getInode.
  destruct (_index fs !! path) as [[stats e|l e ls]|] eqn:Hi; simpl; [| |done].
  - destruct (Z.ltb_spec (size stats) 0) as [Hneg|Hpos].
    + destruct opt_stat as [f|] eqn:Hf.
      * destruct (f path e) as [sz|err] eqn:Hp; [|done].
        intros H. inversion H; subst. simpl. unfold setData. rewrite Hi.
        rewrite lookup_insert_eq. simpl.
        split.
        -- intros Hsz. destruct (Z.ltb_spec sz 0); [lia|done].
        -- intros Hsz _ _. destruct (Z.ltb_spec sz 0); [|lia].
           destruct (f path e); [done|discriminate].
      * intros H. inversion H; subst. rewrite Hi.
        destruct (Z.ltb_spec (size st) 0); [|lia]. split; [lia|done].
    + intros H. inversion H; subst. rewrite Hi.
      destruct (Z.ltb_spec (size st) 0); [lia|]. split; [done|lia].
  - intros H. inversion H; subst. rewrite Hi. split; [done|]. done.
Qed.

(** X16.  [readdir] as installed on the prototype: when
    [loadEntry(path, true)] resolves, every accumulated prefix is a
    directory of the resulting index and the last prefix is [path] itself,
    then [path] is a directory with [entriesLoaded = true] and the callback
    receives its listing; the branch ['Failed to readdir'] is not taken. *)
Theorem readdir_lists_after_preload (path : string) (fs : FS) :
  (loadEntry path true fs).1 = Resolved ->
  let idx := _index (loadEntry path true fs).2 in
  let chain := accumulate join "" (pathList path true) in
  Forall (isDir idx) chain -> last chain = Some path ->
  exists e ls,
    idx !! path = Some (DirInode true e ls) /\
    (wrapped_readdir path fs).1.2 = CbOk ls.
Proof.
  intros Hres idx chain Hdirs Hlast.
  destruct (next_marks join opt_readDirectory _ _ _ Hres) as (n & Hall & Hend).
  subst idx. unfold DynamicRequest.wrapped_readdir, finallyPromise, DynamicRequest.loadEntry in *.
  fold chain in Hall, Hend.
  destruct Hend as [->|(q & Hq & Hnd)].
  - rewrite firstn_all in Hall.
    apply last_Some_elem_of in Hlast.
    destruct (proj1 (Forall_forall _ _) Hall path Hlast) as (e & ls & Hp).
    exists e, ls. split; [done|].
    destruct (next (pathList path true) "" fs) as [[|err] fs1];
      unfold readdir, getInode; cbn [snd fst] in *; by rewrite Hp.
  - exfalso. apply Hnd. by eapply Forall_lookup_1.
Qed.

(** X17.  Reading a file twice: when [readFile] without an encoding
    succeeded (the pre-load resolved, no error, content [b]), the same
    [readFile] on the file system it left gives the same bytes again and
    invokes none of the three providers. *)
Theorem second_readFile_asks_no_provider (fname : string) (flag : FileFlag) (fs fs1 : FS)
    (b : list byte) :
  readFile fname None flag fs = (Resolved, (None, Some (Bytes b)), fs1) ->
  (readFile fname None flag fs1).1 = (Resolved, (None, Some (Bytes b))) /\
  providerCalls (log (readFile fname None flag fs1).2) = providerCalls (log fs1).
Proof.
  unfold DynamicRequest.readFile, DynamicRequest.wrapped_open, finallyPromise.
  destruct (loadEntry fname false fs) as [o fsa] eqn:Hload.
  assert ((loadEntry fname false fs).1 = o) as Hres by (by rewrite Hload).
  assert (fsa = (loadEntry fname false fs).2) as Hfsa by (by rewrite Hload).
  destruct o as [|err].
  2: { destruct (open fname flag fsa) as [[?|?] ?]; simpl; intros H; inversion H. }
  destruct (open fname flag fsa) as [[err|fd] fsb] eqn:Hopen; simpl; [done|].
  intros H. inversion H; subst fsb. clear H.
  match goal with H : closeFile fd = None |- _ => rename H into Hclose end.
  match goal with H : file_buffer fd = b |- _ => rename H into Hb end.
  apply open_success in Hopen as (Hw & Ha & Hfd & Hd & (e & Hi) & Hidx).
  destruct (next_marks join opt_readDirectory _ _ _ Hres) as (n & Hall & Hend).
  unfold DynamicRequest.loadEntry in Hfsa. rewrite <- Hfsa in Hall, Hend.
  destruct (next_settled (pathList fname false) "" fs1 n) as (tr & Hnext & _ & Hp).
  { destruct Hidx as [->| ->]; [done|].
    eapply Forall_impl; [exact Hall|]. intros q. apply setData_loaded. }
  { destruct Hend as [->|(q & Hq & Hnd)]; [by left|right].
    exists q. split; [done|]. destruct Hidx as [->| ->]; [done|].
    intros Hq'. by apply Hnd, (setData_isDir _ fname (file_stat fd)). }
  unfold DynamicRequest.loadEntry. rewrite Hnext.
  rewrite (open_cached (mkFS (_index fs1) (log fs1 ++ tr)) fname flag (file_stat fd) e
             (file_buffer fd)) by done.
  rewrite <- Hfd. simpl. rewrite Hclose, Hb. split; [done|].
  unfold providerCalls in *. rewrite List.filter_app, Hp. by rewrite app_nil_r.
Qed.

(** X18.  [empty()] forces a re-fetch and retains the structure: after it,
    a read-only [open] of a file of the index invokes the content provider,
    also when the content had been cached; every path keeps its kind and
    its [entriesLoaded] mark, and [readdir] answers as before. *)
Theorem empty_forces_refetch (path : string) (flags : FileFlag) (fs : FS) (st : Stats)
    (e : option T) :
  _index fs !! path = Some (FileInode st e) ->
  isWriteable flags = false -> pathExistsAction flags = NOP ->
  log (open path flags (empty fs)).2 = log fs ++ [ReadFileCall path] /\
  (forall q, kindOf (getInode (_index (empty fs)) q) = kindOf (getInode (_index fs) q)) /\
  (forall q, (readdir q (empty fs)).1 = (readdir q fs).1).
Proof.
  intros Hi Hw Ha. split_and!.
  - unfold DynamicRequest.open, empty, getInode. simpl.
    rewrite Hw, lookup_fmap, Hi. simpl. rewrite Ha. simpl.
    by destruct (opt_readFile path e).
  - intros q. unfold empty, getInode. simpl. rewrite lookup_fmap.
    by destruct (_index fs !! q) as [[?|?]|].
  - intros q. unfold readdir, empty, getInode. simpl. rewrite lookup_fmap.
    destruct (_index fs !! q) as [[?|[] ?]|]; done.
Qed.

Lemma next_listing_prefixes segs : forall p (fs : FS),
  exists tr,
    log (next segs p fs).2 = log fs ++ tr /\
    sublist (listingCalls tr) (accumulate join p segs).
Proof.
  induction segs as [|seg rest IH]; intros p fs; simpl.
  { exists []. rewrite app_nil_r. split; [done|constructor]. }
  set (p' := join p seg).
  destruct (getInode (_index fs) p') as [[st e|[] e ls]|] eqn:Hi; simpl.
  - exists [Lookup p' IsFile]. split; [done|]. apply sublist_nil_l.
  - destruct (IH p' (record (Lookup p' (IsDir true)) fs)) as (tr & Hlog & Hsub).
    exists (Lookup p' (IsDir true) :: tr). simpl in *.
    rewrite Hlog, <- app_assoc. split; [done|].
    change (sublist (listingCalls tr) (p' :: accumulate join p' rest)). by constructor.
  - unfold _readDirectory. destruct (opt_readDirectory p' e) as [l|err]; simpl.
    + match goal with |- context [next rest p' ?f] =>
        destruct (IH p' f) as (tr & Hlog & Hsub) end.
      exists (Lookup p' (IsDir false) :: ReadDirectory p' :: Listed p' :: tr). simpl in *.
      rewrite Hlog, <- !app_assoc. split; [done|].
      change (sublist (p' :: listingCalls tr) (p' :: accumulate join p' rest)). by constructor.
    + exists [Lookup p' (IsDir false); ReadDirectory p'; Failed p']. simpl.
      rewrite <- !app_assoc. split; [done|].
      change (sublist [p'] (p' :: accumulate join p' rest)).
      constructor. apply sublist_nil_l.
  - exists [Lookup p' Absent]. split; [done|]. apply sublist_nil_l.
Qed.

(** X11.  The directories that [loadEntry] requests from the listing
    provider are accumulated prefixes of the path, in the order of the path:
    it lists no other directory. *)
Theorem listings_follow_the_path (path : string) (loadBase : bool) (fs : FS) :
  sublist (listingCalls (drop (length (log fs)) (log (loadEntry path loadBase fs).2)))
          (accumulate join "" (pathList path loadBase)).
Proof.
  unfold DynamicRequest.loadEntry.
  destruct (next_listing_prefixes (pathList path loadBase) "" fs) as (tr & Hlog & Hsub).
  by rewrite Hlog, drop_app_length.
Qed.

End Reload.

(** ** Instances of the properties above *)


Lemma loaded_directory_witness :
  "/src"%string ∉ listingCalls (drop (length (log afterMain))
                    (log (loadEntry posixJoin dirMap "/src/backend/ZipFS.ts" false afterMain).2)).
Proof.
  apply (loaded_directory_is_not_listed_again posixJoin dirMap "/src/backend/ZipFS.ts" false
           afterMain "/src").
  exists None, ["README.md"; "backend"; "main.ts"]%string. vm_compute. reflexivity.
Defined.

Lemma loadEntry_again_witness :
  let fs1 := (loadEntry posixJoin dirMap "/src/backend" true create).2 in
  (loadEntry posixJoin dirMap "/src/backend" true fs1).1 = Resolved /\
  _index (loadEntry posixJoin dirMap "/src/backend" true fs1).2 = _index fs1 /\
  listingCalls (log (loadEntry posixJoin dirMap "/src/backend" true fs1).2)
    = listingCalls (log fs1).
Proof.
  apply (loadEntry_again_asks_no_provider posixJoin dirMap "/src/backend" true create).
  vm_compute. reflexivity.
Defined.

Lemma retry_resumes_witness :
  let fs1 := (loadEntry posixJoin flakyDirMap "/test/fixtures/static" true create).2 in
  exists rest,
    listingCalls (drop (length (log fs1))
                    (log (loadEntry posixJoin flakyDirMap "/test/fixtures/static" true fs1).2))
    = "/test"%string :: rest.
Proof.
  apply (retry_resumes_at_the_failed_directory posixJoin flakyDirMap
           "/test/fixtures/static" true create "/test").
  vm_compute. do 5 apply list_elem_of_further. apply list_elem_of_here.
Defined.

Lemma open_cached_witness :
  let r := open (fun e : string => e) twoBytes "/src/main.ts" (mkFileFlag false NOP) afterMain in
  open (fun e : string => e) twoBytes "/src/main.ts" (mkFileFlag false NOP) r.2
  = (CbOk (mkNoSyncFile "/src/main.ts" (mkFileFlag false NOP)
             (mkStats FILE 2 365 (Some [x68; x69])) [x68; x69]), r.2).
Proof.
  apply (open_serves_cached_content (fun e : string => e) twoBytes "/src/main.ts"
           (mkFileFlag false NOP) (mkFileFlag false NOP) afterMain
           (open (fun e : string => e) twoBytes "/src/main.ts" (mkFileFlag false NOP) afterMain).2
           (mkNoSyncFile "/src/main.ts" (mkFileFlag false NOP)
              (mkStats FILE 2 365 (Some [x68; x69])) [x68; x69])).
  - vm_compute. reflexivity.
  - reflexivity.
  - reflexivity.
Defined.

Lemma stat_reuses_witness :
  let dirStats := mkStats DIRECTORY 4096 365 None in
  let st := mkStats FILE 49 365 None in
  let fs1 := (stat (fun e : string => e) (Some size49) dirStats "/src/main.ts" afterMain).2 in
  (0 <= size st ->
   stat (fun e : string => e) (Some size49) dirStats "/src/main.ts" fs1 = (CbOk st, fs1)) /\
  (size st < 0 -> kindOf (getInode (_index afterMain) "/src/main.ts") = IsFile ->
   Some size49 <> None ->
   log (stat (fun e : string => e) (Some size49) dirStats "/src/main.ts" fs1).2
   = log fs1 ++ [StatCall "/src/main.ts"]).
Proof.
  apply (stat_reuses_resolved_size (fun e : string => e) (Some size49)
           (mkStats DIRECTORY 4096 365 None) "/src/main.ts" afterMain).
  vm_compute. reflexivity.
Defined.

Lemma readdir_lists_witness :
  let idx := _index (loadEntry posixJoin dirMap "/src/backend" true create).2 in
  exists e ls,
    idx !! "/src/backend"%string = Some (DirInode true e ls) /\
    (wrapped_readdir posixJoin dirMap "/src/backend" create).1.2 = CbOk ls.
Proof.
  apply (readdir_lists_after_preload posixJoin dirMap "/src/backend" create).
  - vm_compute. reflexivity.
  - vm_compute. repeat constructor.
    + by exists true, None, ["README.md"; "test"; "src"]%string.
    + by exists true, None, ["README.md"; "backend"; "main.ts"]%string.
    + by exists true, None, ["AsyncMirror.ts"; "XmlHttpRequest.ts"; "ZipFS.ts"]%string.
  - vm_compute. reflexivity.
Defined.

Lemma second_readFile_witness :
  let readFile :=
    readFile posixJoin (fun e : string => e) dirMap twoBytes (fun _ => None)
             (fun _ _ => inr "hi"%string) in
  let fs1 := (readFile "/src/main.ts" None (mkFileFlag false NOP) create).2 in
  (readFile "/src/main.ts" None (mkFileFlag false NOP) fs1).1
    = (Resolved, (None, Some (Bytes [x68; x69]))) /\
  providerCalls (log (readFile "/src/main.ts" None (mkFileFlag false NOP) fs1).2)
    = providerCalls (log fs1).
Proof.
  apply (second_readFile_asks_no_provider posixJoin (fun e : string => e) dirMap twoBytes
           (fun _ => None) (fun _ _ => inr "hi"%string)
           "/src/main.ts" (mkFileFlag false NOP) create).
  vm_compute. reflexivity.
Defined.

Lemma empty_forces_witness :
  let fs := (open (fun e : string => e) twoBytes "/src/main.ts" (mkFileFlag false NOP)
               afterMain).2 in
  log (open (fun e : string => e) twoBytes "/src/main.ts" (mkFileFlag false NOP) (empty fs)).2
    = log fs ++ [ReadFileCall "/src/main.ts"] /\
  (forall q, kindOf (getInode (_index (empty fs)) q) = kindOf (getInode (_index fs) q)) /\
  (forall q, (readdir q (empty fs)).1 = (readdir q fs).1).
Proof.
  apply (empty_forces_refetch (fun e : string => e) twoBytes "/src/main.ts"
           (mkFileFlag false NOP)
           (open (fun e : string => e) twoBytes "/src/main.ts" (mkFileFlag false NOP)
              afterMain).2
           (mkStats FILE 2 365 (Some [x68; x69])) None).
  - vm_compute. reflexivity.
  - reflexivity.
  - reflexivity.
Defined.

End DynamicRequestFacts.
